(** * Instructions of the high-level CFG IR (include/swift/CFG/Instruction.h)

    A shallow embedding of the instruction hierarchy declared in
    [Instruction.h]: the kind discriminator and the [classof] range tests,
    the source-location accessors, the per-variant terminators and their
    successor lists, the trailing operand storage of [ApplyInst] and
    [TupleInst], and the basic-block membership discipline maintained by
    [ilist_traits<Instruction>].

    Pointers are addresses ([Z]); a pointer that may be null is an
    [option].  Operations that can hit an assertion return [Abort]. *)

From stdpp Require Import gmap list.
From Stdlib Require Import ZArith Lia.

Local Open Scope Z_scope.

(** ** Addresses, handles and assertion failures *)

Definition addr := Z.

(** [BasicBlock *] *)
Definition BasicBlockPtr := option addr.

(** [CFGValue]: a copyable, non-owning handle on the producing instruction;
    [None] is the null handle. *)
Definition CFGValue := option addr.

(** [Type]: an opaque handle of the semantic type system; [TyNone] is the
    default-constructed (unit/void) type. *)
Inductive SwiftType :=
| TyNone
| TyHandle (id : Z).

(** Outcome of code that may fail an assertion. *)
Inductive Result (A : Type) :=
| Ret (a : A)
| Abort.
Arguments Ret {A} a.
Arguments Abort {A}.

Definition bind {A B} (r : Result A) (k : A -> Result B) : Result B :=
  match r with
  | Ret a => k a
  | Abort => Abort
  end.

Instance SwiftType_eq_dec : EqDecision SwiftType.
Proof. solve_decision. Defined.

(** ** ValueKind and the class hierarchy *)

Module Kind.

(** The enumerators of [ValueKind] named by the [classof] of the concrete
    classes, in the order in which the header declares the classes. *)
Inductive ValueKind :=
| AllocVar | AllocTmp | AllocArray
| Apply | ConstantRef | ZeroValue
| IntegerLiteral | FloatLiteral | CharacterLiteral | StringLiteral
| Load | Store | TypeConversion | Tuple | TypeOf | ScalarToTuple
| TupleElement | IndexLValue
| Unreachable | Return | Branch | CondBranch.

Instance ValueKind_eq_dec : EqDecision ValueKind.
Proof. solve_decision. Defined.

Definition all_kinds : list ValueKind :=
  [ AllocVar; AllocTmp; AllocArray; Apply; ConstantRef; ZeroValue;
    IntegerLiteral; FloatLiteral; CharacterLiteral; StringLiteral;
    Load; Store; TypeConversion; Tuple; TypeOf; ScalarToTuple;
    TupleElement; IndexLValue; Unreachable; Return; Branch; CondBranch ].

(** The classes of the header: the abstract ones and one concrete class per
    kind ([Leaf AllocVar] is [AllocVarInst], and so on). *)
Inductive InstClass :=
| CValue
| CInstruction
| CAllocInst
| CTermInst
| Leaf (k : ValueKind).

Instance InstClass_eq_dec : EqDecision InstClass.
Proof. solve_decision. Defined.

(** The base class in each [class X : public Y] declaration. *)
Definition base (c : InstClass) : option InstClass :=
  match c with
  | CValue => None
  | CInstruction => Some CValue
  | CAllocInst => Some CInstruction
  | CTermInst => Some CInstruction
  | Leaf AllocVar => Some CAllocInst
  | Leaf AllocTmp => Some CAllocInst
  | Leaf AllocArray => Some CInstruction
  | Leaf Unreachable => Some CTermInst
  | Leaf Return => Some CTermInst
  | Leaf Branch => Some CTermInst
  | Leaf CondBranch => Some CTermInst
  | Leaf _ => Some CInstruction
  end.

(** The chain of classes from [c] up to the root; the hierarchy is at most
    four deep. *)
Fixpoint bases_upto (n : nat) (c : InstClass) : list InstClass :=
  c :: match n with
       | O => []
       | S n' => match base c with
                 | Some b => bases_upto n' b
                 | None => []
                 end
       end.

(** [derives c d]: an object of class [c] is a [d]. *)
Definition derives (c d : InstClass) : bool :=
  bool_decide (d ∈ bases_upto 3 c).

(** The enumeration itself is declared in swift/CFG/Value.h, which is not
    part of this header: the value of each enumerator and the six range
    markers are parameters of the range tests. *)
Record ValueKindEnum := {
  enumerator : ValueKind -> Z;
  First_InstructionInst : Z;
  Last_InstructionInst : Z;
  First_AllocInst : Z;
  Last_AllocInst : Z;
  First_TermInst : Z;
  Last_TermInst : Z
}.

Section Classof.
Variable E : ValueKindEnum.

(** [Instruction::classof] *)
Definition Instruction_classof (k : ValueKind) : bool :=
  (First_InstructionInst E <=? enumerator E k) &&
  (enumerator E k <=? Last_InstructionInst E).

(** [AllocInst::classof] *)
Definition AllocInst_classof (k : ValueKind) : bool :=
  (First_AllocInst E <=? enumerator E k) &&
  (enumerator E k <=? Last_AllocInst E).

(** [TermInst::classof] *)
Definition TermInst_classof (k : ValueKind) : bool :=
  (First_TermInst E <=? enumerator E k) &&
  (enumerator E k <=? Last_TermInst E).


(** The enumeration agrees with the class declarations when every range
    test answers whether the class of the kind derives from the tested
    class, which is what [isa<>] and [cast<>] take [classof] to mean. *)
Definition agrees_on (k : ValueKind) : bool :=
  bool_decide (Instruction_classof k = derives (Leaf k) CInstruction) &&
  bool_decide (AllocInst_classof k = derives (Leaf k) CAllocInst) &&
  bool_decide (TermInst_classof k = derives (Leaf k) CTermInst).

Definition agrees_with_hierarchy : bool := forallb agrees_on all_kinds.
End Classof.

(** Position of a kind in the declaration order of the header. *)
Fixpoint index_of (k : ValueKind) (l : list ValueKind) : Z :=
  match l with
  | [] => 0
  | x :: l' => if decide (x = k) then 0 else 1 + index_of k l'
  end.

Definition first_of (c : InstClass) : Z :=
  match filter (fun k => derives (Leaf k) c = true) all_kinds with
  | [] => 0
  | k :: _ => index_of k all_kinds
  end.

Definition last_of (c : InstClass) : Z :=
  match reverse (filter (fun k => derives (Leaf k) c = true) all_kinds) with
  | [] => 0
  | k :: _ => index_of k all_kinds
  end.

(** An example of an enumeration whose range tests follow the class
    declarations: the kinds numbered in declaration order, each range
    spanning the classes that derive from the category.  It is not the
    enumeration of Value.h. *)
Definition declaration_order : ValueKindEnum :=
  {| enumerator := fun k => index_of k all_kinds;
     First_InstructionInst := first_of CInstruction;
     Last_InstructionInst := last_of CInstruction;
     First_AllocInst := first_of CAllocInst;
     Last_AllocInst := last_of CAllocInst;
     First_TermInst := first_of CTermInst;
     Last_TermInst := last_of CTermInst |}.

End Kind.

Import Kind.



(** ** CFGLocation and the Instruction header *)

(** Modelled from the spec: [CFGLocation] (swift/CFG/CFGLocation.h is not part
    of this header) is a tagged union over Decl*, Expr*, Stmt* and the
    null/synthetic state. *)
Inductive CFGLocation :=
| LocNull
| LocDecl (d : addr)
| LocExpr (e : addr)
| LocStmt (s : addr).

Instance CFGLocation_eq_dec : EqDecision CFGLocation.
Proof. solve_decision. Defined.

(** The three AST node categories a location can be asked for. *)
Inductive NodeTag := TagDecl | TagExpr | TagStmt.

(** Modelled from the spec: [Loc.get<Decl*>()], [Loc.get<Expr*>()] and
    [Loc.get<Stmt*>()] return the AST pointer when the tag matches and null
    when the location is synthetic; asking for the wrong kind aborts (the
    header's own comment: it aborts on locations that come from another node
    category). *)
Definition CFGLocation_get (t : NodeTag) (l : CFGLocation) : Result (option addr) :=
  match l, t with
  | LocNull, _ => Ret None
  | LocDecl d, TagDecl => Ret (Some d)
  | LocExpr e, TagExpr => Ret (Some e)
  | LocStmt s, TagStmt => Ret (Some s)
  | _, _ => Abort
  end.

(** [llvm::cast_or_null<T>]: null stays null, a node that is a [T] is
    returned, any other node fails the assertion of [cast<T>].  The target
    type [T] is given by its [classof] test on AST nodes. *)
Definition cast_or_null (classof_T : addr -> bool) (p : option addr) : Result (option addr) :=
  match p with
  | None => Ret None
  | Some a => if classof_T a then Ret (Some a) else Abort
  end.

(** The root of the AST hierarchy of a category ([Decl], [Expr], [Stmt]):
    every node of the category is one. *)
Definition AnyNode : addr -> bool := fun _ => true.

(** [class Instruction]: the [Value] data (kind and type), the parent
    back-reference and the location. *)
Record Instruction := {
  Kind : ValueKind;
  Ty : SwiftType;
  ParentBB : BasicBlockPtr;
  Loc : CFGLocation
}.

(** [Instruction::Instruction(Kind, Loc, Ty)]: [Value(Kind, Ty), ParentBB(0), Loc(Loc)]. *)
Definition Instruction_new (K : ValueKind) (L : CFGLocation) (T : SwiftType) : Instruction :=
  {| Kind := K; Ty := T; ParentBB := None; Loc := L |}.

Definition getKind (I : Instruction) : ValueKind := Kind I.
Definition getType (I : Instruction) : SwiftType := Ty I.
Definition getParent (I : Instruction) : BasicBlockPtr := ParentBB I.
Definition getLoc (I : Instruction) : CFGLocation := Loc I.

(** [Instruction::getLocDecl<T>] *)
Definition getLocDecl (classof_T : addr -> bool) (I : Instruction) : Result (option addr) :=
  bind (CFGLocation_get TagDecl (Loc I)) (cast_or_null classof_T).

(** [Instruction::getLocExpr<T>] *)
Definition getLocExpr (classof_T : addr -> bool) (I : Instruction) : Result (option addr) :=
  bind (CFGLocation_get TagExpr (Loc I)) (cast_or_null classof_T).

(** [Instruction::getLocStmt<T>] *)
Definition getLocStmt (classof_T : addr -> bool) (I : Instruction) : Result (option addr) :=
  bind (CFGLocation_get TagStmt (Loc I)) (cast_or_null classof_T).

(** ** Terminators *)

(** Modelled from the spec: [CFGSuccessor] (swift/CFG/CFGSuccessor.h is not
    part of this header) is an edge handle on the successor block; it is
    assigned from and converts to a [BasicBlock *]. *)
Record CFGSuccessor := { SuccessorBlock : BasicBlockPtr }.

(** Modelled from the spec: the handle a [BasicBlock *] is assigned to
    (CFGSuccessor.h is not part of this header). *)
Definition CFGSuccessor_of (BB : BasicBlockPtr) : CFGSuccessor :=
  {| SuccessorBlock := BB |}.

(** Modelled from the spec: the conversion of the handle to [BasicBlock *]
    (CFGSuccessor.h is not part of this header). *)
Definition toBB (s : CFGSuccessor) : BasicBlockPtr := SuccessorBlock s.

(** [typedef llvm::ArrayRef<CFGSuccessor> SuccessorListTy] *)
Definition SuccessorListTy := list CFGSuccessor.

Record UnreachableInst := { unreachable_base : Instruction }.

Record ReturnInst := {
  return_base : Instruction;
  ReturnValue : CFGValue
}.

Record BranchInst := {
  branch_base : Instruction;
  Arguments : list CFGValue;
  DestBB : CFGSuccessor
}.

(** [CFGSuccessor DestBBs[2]] is a pair of slots, index 0 and index 1. *)
Record CondBranchInst := {
  condbranch_base : Instruction;
  Condition : CFGValue;
  DestBBs : CFGSuccessor * CFGSuccessor
}.

(** [UnreachableInst::getSuccessors]: no successors. *)
Definition UnreachableInst_getSuccessors (_ : UnreachableInst) : SuccessorListTy := [].

(** [ReturnInst::getReturnValue] *)
Definition getReturnValue (r : ReturnInst) : CFGValue := ReturnValue r.

(** [ReturnInst::getSuccessors]: no successors. *)
Definition ReturnInst_getSuccessors (_ : ReturnInst) : SuccessorListTy := [].

(** [BranchInst::getDestBB] *)
Definition getDestBB (b : BranchInst) : BasicBlockPtr := toBB (DestBB b).

(** [BranchInst::getSuccessors]: [return DestBB], the one-element array. *)
Definition BranchInst_getSuccessors (b : BranchInst) : SuccessorListTy := [DestBB b].

(** [CondBranchInst::getCondition] *)
Definition getCondition (c : CondBranchInst) : CFGValue := Condition c.

(** [CondBranchInst::getSuccessors]: [return DestBBs], the two-element array. *)
Definition CondBranchInst_getSuccessors (c : CondBranchInst) : SuccessorListTy :=
  [fst (DestBBs c); snd (DestBBs c)].

(** [getTrueBB] is [DestBBs[0]], [getFalseBB] is [DestBBs[1]]. *)
Definition getTrueBB (c : CondBranchInst) : BasicBlockPtr := toBB (fst (DestBBs c)).
Definition getFalseBB (c : CondBranchInst) : BasicBlockPtr := toBB (snd (DestBBs c)).

(** [setTrueBB]: [DestBBs[0] = BB]. *)
Definition setTrueBB (BB : BasicBlockPtr) (c : CondBranchInst) : CondBranchInst :=
  {| condbranch_base := condbranch_base c;
     Condition := Condition c;
     DestBBs := (CFGSuccessor_of BB, snd (DestBBs c)) |}.

(** [setFalseBB]: [DestBBs[1] = BB]. *)
Definition setFalseBB (BB : BasicBlockPtr) (c : CondBranchInst) : CondBranchInst :=
  {| condbranch_base := condbranch_base c;
     Condition := Condition c;
     DestBBs := (fst (DestBBs c), CFGSuccessor_of BB) |}.

(** A terminator is one of the four classes deriving from [TermInst]. *)
Inductive TermInst :=
| TUnreachable (i : UnreachableInst)
| TReturn (i : ReturnInst)
| TBranch (i : BranchInst)
| TCondBranch (i : CondBranchInst).

(** Modelled from the spec: [TermInst::getSuccessors] is declared in the
    header without a body; it yields the successor list of the variant. *)
Definition TermInst_getSuccessors (t : TermInst) : SuccessorListTy :=
  match t with
  | TUnreachable i => UnreachableInst_getSuccessors i
  | TReturn i => ReturnInst_getSuccessors i
  | TBranch i => BranchInst_getSuccessors i
  | TCondBranch i => CondBranchInst_getSuccessors i
  end.

(** Modelled from the spec: the constructor of [UnreachableInst], declared
    without a body; the instruction is always implicitly generated, so its
    location is the synthetic one. *)
Definition UnreachableInst_new : UnreachableInst :=
  {| unreachable_base := Instruction_new Unreachable LocNull TyNone |}.

(** Modelled from the spec: the constructor of [ReturnInst], declared
    without a body; the return value is a required operand, and constructing
    with a null required operand fails an assertion. *)
Definition ReturnInst_new (S : addr) (RV : CFGValue) : Result ReturnInst :=
  match RV with
  | None => Abort
  | Some _ =>
      Ret {| return_base := Instruction_new Return (LocStmt S) TyNone;
             ReturnValue := RV |}
  end.

(** Modelled from the spec: the constructor of [BranchInst], declared
    without a body; the block arguments are reserved and unused. *)
Definition BranchInst_new (Dest : BasicBlockPtr) : BranchInst :=
  {| branch_base := Instruction_new Branch LocNull TyNone;
     Arguments := [];
     DestBB := CFGSuccessor_of Dest |}.

(** Modelled from the spec: the constructor of [CondBranchInst], declared
    without a body. *)
Definition CondBranchInst_new (TheStmt : addr) (Cond : CFGValue)
    (TrueBB FalseBB : BasicBlockPtr) : CondBranchInst :=
  {| condbranch_base := Instruction_new CondBranch (LocStmt TheStmt) TyNone;
     Condition := Cond;
     DestBBs := (CFGSuccessor_of TrueBB, CFGSuccessor_of FalseBB) |}.

(** ** StoreInst *)

Record StoreInst := {
  store_base : Instruction;
  Src : CFGValue;
  Dest : CFGValue;
  IsInitialization : bool
}.

Definition getSrc (s : StoreInst) : CFGValue := Src s.
Definition getDest (s : StoreInst) : CFGValue := Dest s.

(** [StoreInst::isInitialization] *)
Definition isInitialization (s : StoreInst) : bool := IsInitialization s.

(** The AST node a [StoreInst] constructor is given, one case per declared
    constructor. *)
Inductive StoreSource :=
| FromAssignStmt (S : addr)
| FromVarDecl (VD : addr)
| FromMaterializeExpr (E : addr)
| FromTupleShuffleExpr (E : addr).

(** Modelled from the spec: the four constructors are declared without
    bodies.  Each binds the location of its AST node, has the unit result
    type and sets [IsInitialization]: a general store for an assignment, an
    initialization for a variable initializer, for a materialized temporary
    and for the elements of the array a tuple shuffle allocates. *)
Definition StoreInst_new (from : StoreSource) (S D : CFGValue) : StoreInst :=
  match from with
  | FromAssignStmt A =>
      {| store_base := Instruction_new Store (LocStmt A) TyNone;
         Src := S; Dest := D; IsInitialization := false |}
  | FromVarDecl VD =>
      {| store_base := Instruction_new Store (LocDecl VD) TyNone;
         Src := S; Dest := D; IsInitialization := true |}
  | FromMaterializeExpr E =>
      {| store_base := Instruction_new Store (LocExpr E) TyNone;
         Src := S; Dest := D; IsInitialization := true |}
  | FromTupleShuffleExpr E =>
      {| store_base := Instruction_new Store (LocExpr E) TyNone;
         Src := S; Dest := D; IsInitialization := true |}
  end.

(** ** Trailing operand storage: ApplyInst and TupleInst *)

(** [unsigned]: 32 bits, conversion wraps around. *)
Definition UINT_MAX : Z := 2 ^ 32 - 1.
Definition to_unsigned (n : Z) : Z := n mod 2 ^ 32.

(** The header of an [ApplyInst]; the arguments follow it in memory. *)
Record ApplyInst := {
  apply_base : Instruction;
  Callee : CFGValue;
  apply_NumArgs : Z
}.

(** The header of a [TupleInst]; the elements follow it in memory. *)
Record TupleInst := {
  tuple_base : Instruction;
  tuple_NumArgs : Z
}.

(** A handle that refers to an instruction. *)
Definition non_null (v : CFGValue) : bool :=
  match v with
  | Some _ => true
  | None => false
  end.

(** What an address of the arena holds. *)
Inductive Object :=
| ObjApply (a : ApplyInst)
| ObjTuple (t : TupleInst)
| ObjValue (v : CFGValue).

(** The arena of a CFG context: a bump pointer and the memory handed out. *)
Record CFG := {
  brk : addr;
  mem : gmap addr Object
}.

(** [MutableArrayRef<CFGValue>] / [ArrayRef<CFGValue>]: a pointer and a length. *)
Record ArrayRef := {
  Data : addr;
  Length : Z
}.

Section TrailingStorage.
(** [sizeof(ApplyInst)], [sizeof(TupleInst)], [sizeof(CFGValue)] and the
    alignment asked of the arena depend on the target. *)
Variables sizeof_ApplyInst sizeof_TupleInst sizeof_CFGValue alignment : Z.

(** Element [k] of an array of handles in memory; an index outside the array
    fails the assertion of [operator[]]. *)
Definition ArrayRef_at (m : gmap addr Object) (r : ArrayRef) (k : Z) : Result CFGValue :=
  if (0 <=? k) && (k <? Length r) then
    match m !! (Data r + k * sizeof_CFGValue) with
    | Some (ObjValue v) => Ret v
    | _ => Abort
    end
  else Abort.

(** [ApplyInst::getArgsStorage]: [reinterpret_cast<CFGValue*>(this + 1)]. *)
Definition getArgsStorage (this : addr) : addr := this + 1 * sizeof_ApplyInst.

(** [ApplyInst::getArguments]: [MutableArrayRef<CFGValue>(getArgsStorage(), NumArgs)]. *)
Definition getArguments (this : addr) (I : ApplyInst) : ArrayRef :=
  {| Data := getArgsStorage this; Length := apply_NumArgs I |}.

(** [TupleInst::getElementsStorage]: [reinterpret_cast<CFGValue*>(this + 1)]. *)
Definition getElementsStorage (this : addr) : addr := this + 1 * sizeof_TupleInst.

(** [TupleInst::getElements]: [MutableArrayRef<CFGValue>(getElementsStorage(), NumArgs)]. *)
Definition getElements (this : addr) (I : TupleInst) : ArrayRef :=
  {| Data := getElementsStorage this; Length := tuple_NumArgs I |}.

(** The next multiple of [al] from [a] on. *)
Definition align_up (a al : Z) : Z :=
  if al <=? 0 then a else ((a + al - 1) / al) * al.

(** Modelled from the spec: the arena's [allocate(nBytes, align)] (the CFG
    context is not part of this header) returns memory that lives as long as
    the context; here the next aligned address past everything handed out
    before. *)
Definition allocate (nBytes al : Z) (C : CFG) : addr * CFG :=
  let p := align_up (brk C) al in
  (p, {| brk := p + nBytes; mem := mem C |}).

(** Copying the operands into consecutive handle slots from [p] on. *)
Fixpoint store_values (p : addr) (vs : list CFGValue) (m : gmap addr Object) : gmap addr Object :=
  match vs with
  | [] => m
  | v :: vs' => store_values (p + sizeof_CFGValue) vs' (<[p := ObjValue v]> m)
  end.

(** Modelled from the spec: the private constructor of [ApplyInst], declared
    without a body, placement-initializes the header at [this] and the
    operand slots behind it. *)
Definition ApplyInst_ctor (this : addr) (Expr : addr) (T : SwiftType) (Cal : CFGValue)
    (Args : list CFGValue) (m : gmap addr Object) : gmap addr Object :=
  let hdr := {| apply_base := Instruction_new Apply (LocExpr Expr) T;
                Callee := Cal;
                apply_NumArgs := to_unsigned (Z.of_nat (length Args)) |} in
  store_values (getArgsStorage this) Args (<[this := ObjApply hdr]> m).

(** Modelled from the spec: [ApplyInst::create], declared without a body,
    allocates [sizeof(header) + N * sizeof(handle)] from the arena and
    constructs the instruction there.  The callee and every argument are
    required operands: constructing with a null one fails an assertion. *)
Definition ApplyInst_create (Expr : addr) (T : SwiftType) (Cal : CFGValue)
    (Args : list CFGValue) (C : CFG) : Result (addr * CFG) :=
  if non_null Cal && forallb non_null Args then
    let '(buf, C') :=
      allocate (sizeof_ApplyInst + Z.of_nat (length Args) * sizeof_CFGValue) alignment C in
    Ret (buf, {| brk := brk C'; mem := ApplyInst_ctor buf Expr T Cal Args (mem C') |})
  else Abort.

(** Modelled from the spec: the private constructor of [TupleInst]. *)
Definition TupleInst_ctor (this : addr) (E : addr) (T : SwiftType)
    (Elements : list CFGValue) (m : gmap addr Object) : gmap addr Object :=
  let hdr := {| tuple_base := Instruction_new Tuple (LocExpr E) T;
                tuple_NumArgs := to_unsigned (Z.of_nat (length Elements)) |} in
  store_values (getElementsStorage this) Elements (<[this := ObjTuple hdr]> m).

(** Modelled from the spec: [TupleInst::createImpl], declared without a body,
    allocates the header and the element slots in one piece; the spec names
    no non-null requirement for the elements of a tuple. *)
Definition TupleInst_createImpl (E : addr) (T : SwiftType)
    (Elements : list CFGValue) (C : CFG) : addr * CFG :=
  let '(buf, C') :=
    allocate (sizeof_TupleInst + Z.of_nat (length Elements) * sizeof_CFGValue) alignment C in
  (buf, {| brk := brk C'; mem := TupleInst_ctor buf E T Elements (mem C') |}).

(** [TupleInst::create], both overloads: [createImpl((Expr* )E, Elements, C)]. *)
Definition TupleInst_create (E : addr) (T : SwiftType)
    (Elements : list CFGValue) (C : CFG) : addr * CFG :=
  TupleInst_createImpl E T Elements C.

End TrailingStorage.

(** ** Basic-block membership *)

(** The instruction objects that hold storage in the arena, by address, and
    the instruction list of every basic block, in program order. *)
Record CFGState := {
  insts : gmap addr Instruction;
  blocks : gmap addr (list addr)
}.

Definition empty_state : CFGState := {| insts := ∅; blocks := ∅ |}.

Definition set_parent (p : BasicBlockPtr) (I : Instruction) : Instruction :=
  {| Kind := Kind I; Ty := Ty I; ParentBB := p; Loc := Loc I |}.

(** [i->getParent()] through the store; [None] when [i] holds no storage. *)
Definition parent_of (s : CFGState) (i : addr) : option BasicBlockPtr :=
  getParent <$> insts s !! i.

(** [ilist_traits<Instruction>::deleteNode]: the body is empty. *)
Definition deleteNode (V : addr) (s : CFGState) : CFGState := s.

(** Modelled from the spec: [addNodeToList(i)] sets [i.parent] to the owning
    block. *)
Definition addNodeToList (owner i : addr) (s : CFGState) : CFGState :=
  {| insts := alter (set_parent (Some owner)) i (insts s); blocks := blocks s |}.

(** Modelled from the spec: [removeNodeFromList(i)] clears [i.parent]. *)
Definition removeNodeFromList (i : addr) (s : CFGState) : CFGState :=
  {| insts := alter (set_parent None) i (insts s); blocks := blocks s |}.

(** Modelled from the spec: [transferNodesFromList(L2, first, last)]
    re-parents the range to the new owner in one pass. *)
Definition transferNodesFromList (owner : addr) (range : list addr) (s : CFGState) : CFGState :=
  {| insts := foldr (alter (set_parent (Some owner))) (insts s) range;
     blocks := blocks s |}.

(** The nodes of the half-open range [first, last) of a list, and the list
    without them. *)
Definition range_of (first last : nat) (l : list addr) : list addr :=
  take (last - first) (drop first l).

Definition without_range (first last : nat) (l : list addr) : list addr :=
  take first l ++ drop last l.

(** [llvm::iplist] over these traits.  [insert] links a node that is in no
    list before position [pos] and tells the traits. *)
Definition iplist_insert (b : addr) (pos : nat) (i : addr) (s : CFGState) : Result CFGState :=
  match blocks s !! b, insts s !! i with
  | Some l, Some ins =>
      match ParentBB ins with
      | None =>
          if decide (pos ≤ length l)%nat then
            Ret (addNodeToList b i
                   {| insts := insts s;
                      blocks := <[b := take pos l ++ i :: drop pos l]> (blocks s) |})
          else Abort
      | Some _ => Abort
      end
  | _, _ => Abort
  end.

(** [remove] unlinks a node of the list and tells the traits. *)
Definition iplist_remove (b i : addr) (s : CFGState) : Result CFGState :=
  match blocks s !! b with
  | Some l =>
      if decide (i ∈ l) then
        Ret (removeNodeFromList i
               {| insts := insts s;
                  blocks := <[b := filter (fun j => j ≠ i) l]> (blocks s) |})
      else Abort
  | None => Abort
  end.

(** [erase] is [deleteNode(remove(where))]. *)
Definition iplist_erase (b i : addr) (s : CFGState) : Result CFGState :=
  bind (iplist_remove b i s) (fun s' => Ret (deleteNode i s')).

(** [splice]/[transfer]: unlinks the range [first, last) of the list of [b1],
    links it into the list of [b2] before position [pos] (counted once the
    range is unlinked) and hands the range to the traits of [b2]. *)
Definition iplist_splice (b2 : addr) (pos : nat) (b1 : addr) (first last : nat)
    (s : CFGState) : Result CFGState :=
  match blocks s !! b1 with
  | Some l1 =>
      if decide (first ≤ last ∧ last ≤ length l1)%nat then
        let moved := range_of first last l1 in
        let unlinked := <[b1 := without_range first last l1]> (blocks s) in
        match unlinked !! b2 with
        | Some l2 =>
            if decide (pos ≤ length l2)%nat then
              Ret (transferNodesFromList b2 moved
                     {| insts := insts s;
                        blocks := <[b2 := take pos l2 ++ moved ++ drop pos l2]> unlinked |})
            else Abort
        | None => Abort
        end
      else Abort
  | None => Abort
  end.

(** Modelled from the spec: [Instruction::removeFromParent], declared without
    a body, unlinks the instruction from its block and does not destroy it;
    the instruction must be attached. *)
Definition removeFromParent (i : addr) (s : CFGState) : Result CFGState :=
  match parent_of s i with
  | Some (Some b) => iplist_remove b i s
  | _ => Abort
  end.

(** Modelled from the spec: destroying an instruction returns its storage to
    the arena (the arena is not part of this header). *)
Definition destroy (i : addr) (s : CFGState) : CFGState :=
  {| insts := delete i (insts s); blocks := blocks s |}.

(** Whether an attached instruction other than [i] holds a handle on [i].
    The handles are fields of the concrete instruction classes, outside the
    [Instruction] part kept in the store: [operands j] are the handles the
    object at [j] holds when the question is asked. *)
Definition still_referenced (operands : addr -> list CFGValue) (i : addr)
    (s : CFGState) : bool :=
  existsb (fun '(j, ins) =>
             bool_decide (j ≠ i) && bool_decide (ParentBB ins ≠ None) &&
             bool_decide (Some i ∈ operands j))
          (map_to_list (insts s)).

(** Modelled from the spec: [Instruction::eraseFromParent], declared without
    a body, detaches and then destroys; erasing an instruction that another
    attached instruction still references fails an assertion. *)
Definition eraseFromParent (operands : addr -> list CFGValue) (i : addr)
    (s : CFGState) : Result CFGState :=
  if still_referenced operands i s then Abort
  else bind (removeFromParent i s) (fun s' => Ret (destroy i s')).

(** Placing a freshly constructed instruction (parent null, by the
    constructor of [Instruction]) at an unused address. *)
Definition new_Instruction (i : addr) (K : ValueKind) (L : CFGLocation) (T : SwiftType)
    (s : CFGState) : Result CFGState :=
  match insts s !! i with
  | None => Ret {| insts := <[i := Instruction_new K L T]> (insts s); blocks := blocks s |}
  | Some _ => Abort
  end.

(** A new basic block starts with an empty instruction list. *)
Definition new_BasicBlock (b : addr) (s : CFGState) : Result CFGState :=
  match blocks s !! b with
  | None => Ret {| insts := insts s; blocks := <[b := []]> (blocks s) |}
  | Some _ => Abort
  end.

(** The operations that act on instructions and instruction lists. *)
Inductive Op :=
| OpNewInstruction (i : addr) (K : ValueKind) (L : CFGLocation) (T : SwiftType)
| OpNewBasicBlock (b : addr)
| OpInsert (b : addr) (pos : nat) (i : addr)
| OpRemove (b i : addr)
| OpErase (b i : addr)
| OpSplice (b2 : addr) (pos : nat) (b1 : addr) (first last : nat)
| OpDeleteNode (i : addr)
| OpRemoveFromParent (i : addr)
| OpEraseFromParent (operands : addr -> list CFGValue) (i : addr).

Definition step (o : Op) (s : CFGState) : Result CFGState :=
  match o with
  | OpNewInstruction i K L T => new_Instruction i K L T s
  | OpNewBasicBlock b => new_BasicBlock b s
  | OpInsert b pos i => iplist_insert b pos i s
  | OpRemove b i => iplist_remove b i s
  | OpErase b i => iplist_erase b i s
  | OpSplice b2 pos b1 first last => iplist_splice b2 pos b1 first last s
  | OpDeleteNode i => Ret (deleteNode i s)
  | OpRemoveFromParent i => removeFromParent i s
  | OpEraseFromParent operands i => eraseFromParent operands i s
  end.

Fixpoint run (ops : list Op) (s : CFGState) : Result CFGState :=
  match ops with
  | [] => Ret s
  | o :: ops' => bind (step o s) (run ops')
  end.

(** The states a program can build, starting with no block and no
    instruction. *)
Definition reachable (s : CFGState) : Prop :=
  ∃ ops, run ops empty_state = Ret s.

(** Parent consistency: a listed instruction is live and points back at its
    block; no list holds a node twice; an attached instruction is in the
    list of its parent. *)
Record consistent (s : CFGState) : Prop := {
  listed_parent : ∀ b l i, blocks s !! b = Some l → i ∈ l →
    ∃ I, insts s !! i = Some I ∧ ParentBB I = Some b;
  listed_once : ∀ b l, blocks s !! b = Some l → NoDup l;
  attached_listed : ∀ i I b, insts s !! i = Some I → ParentBB I = Some b →
    ∃ l, blocks s !! b = Some l ∧ i ∈ l
}.

(** The instructions that hold storage in [s] still hold storage in [s']. *)
Definition storage_kept (s s' : CFGState) : Prop :=
  ∀ i, is_Some (insts s !! i) -> is_Some (insts s' !! i).


(** A small CFG: block 10 holds instructions 1, 2, 3 and block 20 holds 4. *)
Definition example_ops : list Op :=
  [ OpNewBasicBlock 10; OpNewBasicBlock 20;
    OpNewInstruction 1 IntegerLiteral (LocExpr 100) (TyHandle 1);
    OpNewInstruction 2 IntegerLiteral (LocExpr 101) (TyHandle 1);
    OpNewInstruction 3 Return (LocStmt 102) TyNone;
    OpNewInstruction 4 Unreachable LocNull TyNone;
    OpInsert 10 0 1; OpInsert 10 1 2; OpInsert 10 2 3; OpInsert 20 0 4 ].

Definition example_state : CFGState :=
  match run example_ops empty_state with
  | Ret s => s
  | Abort => empty_state
  end.

(** ** Further accessors and the mutable operand view *)

(** [ApplyInst::getCallee] *)
Definition getCallee (I : ApplyInst) : CFGValue := Callee I.

(** [MutableArrayRef<CFGValue>::operator[]] as the target of an assignment:
    slot [k] of the array gets the handle; an index outside the array fails
    the assertion. *)
Definition ArrayRef_set (sizeof_CFGValue : Z) (m : gmap addr Object) (r : ArrayRef)
    (k : Z) (v : CFGValue) : Result (gmap addr Object) :=
  if (0 <=? k) && (k <? Length r) then
    Ret (<[Data r + k * sizeof_CFGValue := ObjValue v]> m)
  else Abort.

(** An arena holding one [ApplyInst] with two arguments, created at address
    0 with a 32-byte header and 8-byte handles. *)
Definition example_arena : CFG :=
  match ApplyInst_create 32 8 8 100 TyNone (Some 1) [Some 2; Some 3]
          {| brk := 0; mem := ∅ |} with
  | Ret (_, C) => C
  | Abort => {| brk := 0; mem := ∅ |}
  end.

(** An empty arena, and an argument list one longer than an [unsigned]
    count can hold. *)
Definition empty_arena : CFG := {| brk := 0; mem := ∅ |}.

Definition huge_args : list CFGValue := replicate (Z.to_nat (2 ^ 32)) (Some 1).

(** The operands in the small CFG below: the return at address 3 holds a
    handle on the literal at address 1; no other instruction holds one. *)
Definition return_uses_literal : addr -> list CFGValue :=
  fun j => if decide (j = 3) then [Some 1] else [].

Definition example_apply : ApplyInst :=
  {| apply_base := Instruction_new Apply (LocExpr 100) TyNone;
     Callee := Some 1; apply_NumArgs := 2 |}.

(** * Properties *)

(** ** Kind ranges *)

Lemma all_kinds_complete (k : ValueKind) : k ∈ all_kinds.
Proof. destruct k; unfold all_kinds; set_solver. Qed.

Lemma agrees_at (E : ValueKindEnum) (k : ValueKind) :
  agrees_with_hierarchy E = true -> agrees_on E k = true.
Proof.
  unfold agrees_with_hierarchy. rewrite forallb_forall. intros H.
  apply H, list_elem_of_In, all_kinds_complete.
Qed.

Lemma agrees_alloc (E : ValueKindEnum) (k : ValueKind) :
  agrees_with_hierarchy E = true ->
  AllocInst_classof E k = derives (Leaf k) CAllocInst.
Proof.
  intros H. apply (agrees_at E k) in H. unfold agrees_on in H.
  apply andb_prop in H as [H _]. apply andb_prop in H as [_ H].
  by apply bool_decide_eq_true in H.
Qed.




(** ** Successors of terminators *)

(** C2.  [getSuccessors] yields the fixed sequence of the variant: none for
    [UnreachableInst] and [ReturnInst], the destination for [BranchInst],
    the true and then the false block for [CondBranchInst]; the
    [TermInst]-level call yields the sequence of the variant. *)
Theorem getSuccessors_per_variant :
  (∀ u, TermInst_getSuccessors (TUnreachable u) = [] ∧
        UnreachableInst_getSuccessors u = []) ∧
  (∀ r, TermInst_getSuccessors (TReturn r) = [] ∧
        ReturnInst_getSuccessors r = []) ∧
  (∀ b, TermInst_getSuccessors (TBranch b) = [DestBB b] ∧
        toBB <$> BranchInst_getSuccessors b = [getDestBB b]) ∧
  (∀ c, TermInst_getSuccessors (TCondBranch c) = [fst (DestBBs c); snd (DestBBs c)] ∧
        toBB <$> CondBranchInst_getSuccessors c = [getTrueBB c; getFalseBB c]) ∧
  (∀ D, toBB <$> BranchInst_getSuccessors (BranchInst_new D) = [D]) ∧
  (∀ S C T F,
     toBB <$> CondBranchInst_getSuccessors (CondBranchInst_new S C T F) = [T; F]).
Proof. repeat split. Qed.

(** C10.  [setTrueBB(B)] makes [getTrueBB()] and successor 0 equal to [B]
    and leaves the false block, successor 1, the condition and the
    [Instruction] data (kind, type, parent, location) as they were;
    [setFalseBB(B)] does the same for index 1. *)
Theorem setTrueBB_setFalseBB_frame (cb : CondBranchInst) (B : BasicBlockPtr) :
  (getTrueBB (setTrueBB B cb) = B ∧
   toBB <$> (CondBranchInst_getSuccessors (setTrueBB B cb) !! 0%nat) = Some B ∧
   getFalseBB (setTrueBB B cb) = getFalseBB cb ∧
   CondBranchInst_getSuccessors (setTrueBB B cb) !! 1%nat =
     CondBranchInst_getSuccessors cb !! 1%nat ∧
   length (CondBranchInst_getSuccessors (setTrueBB B cb)) = 2%nat ∧
   getCondition (setTrueBB B cb) = getCondition cb ∧
   condbranch_base (setTrueBB B cb) = condbranch_base cb) ∧
  (getFalseBB (setFalseBB B cb) = B ∧
   toBB <$> (CondBranchInst_getSuccessors (setFalseBB B cb) !! 1%nat) = Some B ∧
   getTrueBB (setFalseBB B cb) = getTrueBB cb ∧
   CondBranchInst_getSuccessors (setFalseBB B cb) !! 0%nat =
     CondBranchInst_getSuccessors cb !! 0%nat ∧
   length (CondBranchInst_getSuccessors (setFalseBB B cb)) = 2%nat ∧
   getCondition (setFalseBB B cb) = getCondition cb ∧
   condbranch_base (setFalseBB B cb) = condbranch_base cb).
Proof. repeat split. Qed.

(** ** Location accessors *)

Lemma getLoc_wrong_tag (T : addr -> bool) (I : Instruction) (e : addr) :
  Loc I = LocExpr e -> getLocStmt T I = Abort ∧ getLocDecl T I = Abort.
Proof. intros H. unfold getLocStmt, getLocDecl. rewrite H. done. Qed.

(** C7.  On an instruction whose location is the Expr node [e],
    [getLocExpr<T>] returns [e] for every [T] that [e] is an instance of (in
    particular for [Expr] itself) and [getLocStmt] aborts; on an instruction
    with the synthetic location the three accessors return null. *)
Theorem location_round_trip (I : Instruction) (e : addr) (T T' : addr -> bool) :
  (Loc I = LocExpr e ->
     (T e = true -> getLocExpr T I = Ret (Some e)) ∧
     getLocExpr AnyNode I = Ret (Some e) ∧
     getLocStmt T' I = Abort) ∧
  (Loc I = LocNull ->
     getLocDecl T I = Ret None ∧ getLocExpr T I = Ret None ∧
     getLocStmt T I = Ret None).
Proof.
  split; intros H.
  - split; [|split].
    + intros HT. unfold getLocExpr. rewrite H. simpl. by rewrite HT.
    + unfold getLocExpr. by rewrite H.
    + by apply (getLoc_wrong_tag T' I e).
  - unfold getLocDecl, getLocExpr, getLocStmt. by rewrite H.
Qed.

Lemma location_round_trip_witness :
  (getLocExpr AnyNode (Instruction_new Load (LocExpr 7) TyNone) = Ret (Some 7) ∧
   getLocStmt AnyNode (Instruction_new Load (LocExpr 7) TyNone) = Abort) ∧
  getLocExpr AnyNode (unreachable_base UnreachableInst_new) = Ret None.
Proof.
  split.
  - pose proof (proj1 (location_round_trip
                  (Instruction_new Load (LocExpr 7) TyNone) 7 AnyNode AnyNode) eq_refl)
      as (_ & H1 & H2).
    exact (conj H1 H2).
  - exact (proj1 (proj2 (proj2 (location_round_trip
             (unreachable_base UnreachableInst_new) 0 AnyNode AnyNode) eq_refl))).
Defined.

(** ** ReturnInst *)

(** C8.  A [ReturnInst] is built only from a non-null value: the constructor
    succeeds on every non-null value, and the instruction it yields holds a
    non-null [ReturnValue], which [getReturnValue()] returns as passed. *)
Theorem ReturnInst_value_non_null (S : addr) (RV : CFGValue) :
  (∀ r, ReturnInst_new S RV = Ret r ->
        getReturnValue r = RV ∧ getReturnValue r ≠ None ∧
        ReturnInst_getSuccessors r = []) ∧
  (RV ≠ None -> ∃ r, ReturnInst_new S RV = Ret r) ∧
  (RV = None -> ReturnInst_new S RV = Abort).
Proof.
  split; [|split].
  - intros r H. destruct RV as [v|]; [|discriminate H].
    injection H as <-. done.
  - intros H. destruct RV as [v|]; [|done]. eexists. reflexivity.
  - intros ->. reflexivity.
Qed.

Lemma ReturnInst_value_non_null_witness :
  ∃ r, ReturnInst_new 3 (Some 5) = Ret r ∧ getReturnValue r = Some 5 ∧
       getReturnValue r ≠ None.
Proof.
  destruct (proj1 (proj2 (ReturnInst_value_non_null 3 (Some 5)))) as [r Hr];
    [discriminate|].
  exists r. split; [exact Hr|].
  destruct (proj1 (ReturnInst_value_non_null 3 (Some 5)) r Hr) as (H1 & H2 & _).
  exact (conj H1 H2).
Defined.

(** ** Trailing storage *)

Section TrailingStorageFacts.
Variable sz : Z.
Hypothesis sz_pos : 0 < sz.

Lemma store_values_below (vs : list CFGValue) (p q : addr) (m : gmap addr Object) :
  q < p -> store_values sz p vs m !! q = m !! q.
Proof.
  revert p m. induction vs as [|v vs IH]; intros p m Hq; simpl; [done|].
  rewrite IH by lia. apply lookup_insert_ne. lia.
Qed.

Lemma store_values_slot (vs : list CFGValue) (p : addr) (m : gmap addr Object)
    (k : nat) (v : CFGValue) :
  vs !! k = Some v ->
  store_values sz p vs m !! (p + Z.of_nat k * sz) = Some (ObjValue v).
Proof.
  revert p m k. induction vs as [|w vs IH]; intros p m k Hk; [done|].
  destruct k as [|k].
  - injection Hk as ->.
    assert (p + Z.of_nat 0 * sz = p) as -> by lia.
    simpl. rewrite store_values_below by lia. apply lookup_insert_eq.
  - assert (p + Z.of_nat (S k) * sz = (p + sz) + Z.of_nat k * sz) as -> by lia.
    simpl. by apply IH.
Qed.

Lemma to_unsigned_small (n : Z) : 0 <= n <= UINT_MAX -> to_unsigned n = n.
Proof. unfold to_unsigned, UINT_MAX. intros H. apply Z.mod_small. lia. Qed.

Lemma ArrayRef_at_slot (vs : list CFGValue) (p : addr) (m : gmap addr Object)
    (k : nat) (v : CFGValue) :
  vs !! k = Some v ->
  ArrayRef_at sz (store_values sz p vs m)
    {| Data := p; Length := Z.of_nat (length vs) |} (Z.of_nat k) = Ret v.
Proof.
  intros Hk. unfold ArrayRef_at. simpl.
  pose proof (lookup_lt_Some _ _ _ Hk) as Hlt.
  replace (0 <=? Z.of_nat k) with true by (symmetry; apply Z.leb_le; lia).
  replace (Z.of_nat k <? Z.of_nat (length vs)) with true
    by (symmetry; apply Z.ltb_lt; lia).
  simpl. by rewrite (store_values_slot vs p m k v Hk).
Qed.
End TrailingStorageFacts.

Lemma forallb_non_null (Args : list CFGValue) :
  forallb non_null Args = true ↔ None ∉ Args.
Proof.
  induction Args as [|v Args IH]; simpl.
  - split; [intros _; apply not_elem_of_nil|done].
  - rewrite andb_true_iff, IH, not_elem_of_cons. destruct v; simpl; split.
    + intros [_ H]. by split.
    + intros [_ H]. by split.
    + intros [H _]. discriminate H.
    + intros [H _]. by destruct H.
Qed.

Lemma ApplyInst_create_run (hA sz al : Z) (E : addr) (T : SwiftType) (Cal : CFGValue)
    (Args : list CFGValue) (C : CFG) :
  non_null Cal = true -> forallb non_null Args = true ->
  ApplyInst_create hA sz al E T Cal Args C =
    Ret (align_up (brk C) al,
         {| brk := align_up (brk C) al + (hA + Z.of_nat (length Args) * sz);
            mem := ApplyInst_ctor hA sz (align_up (brk C) al) E T Cal Args (mem C) |}).
Proof. intros H1 H2. unfold ApplyInst_create. by rewrite H1, H2. Qed.

Lemma ApplyInst_ctor_header (hA sz : Z) (this E : addr) (T : SwiftType) (Cal : CFGValue)
    (Args : list CFGValue) (m : gmap addr Object) :
  0 < hA -> 0 < sz ->
  ApplyInst_ctor hA sz this E T Cal Args m !! this =
    Some (ObjApply {| apply_base := Instruction_new Apply (LocExpr E) T;
                      Callee := Cal;
                      apply_NumArgs := to_unsigned (Z.of_nat (length Args)) |}).
Proof.
  intros HA Hsz. unfold ApplyInst_ctor. rewrite store_values_below.
  - apply lookup_insert_eq.
  - done.
  - unfold getArgsStorage. lia.
Qed.

(** C5, as amended.  For argument lists that the [unsigned] count can hold,
    [ApplyInst::create] succeeds on a non-null callee and non-null arguments
    and aborts on a null one; the instruction it returns has a
    [getArguments()] of the length of the list whose slot [k] is the [k]-th
    argument passed; likewise [TupleInst::create] and [getElements()]. *)
Theorem trailing_storage_holds_operands
    (hA hT sz al : Z) (E : addr) (T : SwiftType) (Cal : CFGValue)
    (Args : list CFGValue) (C : CFG) :
  0 < hA -> 0 < hT -> 0 < sz -> Z.of_nat (length Args) <= UINT_MAX ->
  (Cal ≠ None -> None ∉ Args ->
     ∃ this C', ApplyInst_create hA sz al E T Cal Args C = Ret (this, C')) ∧
  (Cal = None ∨ None ∈ Args -> ApplyInst_create hA sz al E T Cal Args C = Abort) ∧
  (∀ this C', ApplyInst_create hA sz al E T Cal Args C = Ret (this, C') ->
     ∃ I, mem C' !! this = Some (ObjApply I) ∧
          getCallee I = Cal ∧
          Length (getArguments hA this I) = Z.of_nat (length Args) ∧
          ∀ (k : nat) v, Args !! k = Some v ->
            ArrayRef_at sz (mem C') (getArguments hA this I) (Z.of_nat k) = Ret v) ∧
  (∃ I, mem (TupleInst_create hT sz al E T Args C).2
          !! (TupleInst_create hT sz al E T Args C).1 = Some (ObjTuple I) ∧
        Length (getElements hT (TupleInst_create hT sz al E T Args C).1 I)
          = Z.of_nat (length Args) ∧
        ∀ (k : nat) v, Args !! k = Some v ->
          ArrayRef_at sz (mem (TupleInst_create hT sz al E T Args C).2)
            (getElements hT (TupleInst_create hT sz al E T Args C).1 I)
            (Z.of_nat k) = Ret v).
Proof.
  intros HA HT Hsz Hn. split; [|split; [|split]].
  - intros HC HArgs. eexists _, _. apply ApplyInst_create_run.
    + by destruct Cal.
    + by apply forallb_non_null.
  - intros H. unfold ApplyInst_create.
    destruct (non_null Cal) eqn:HC; [|done].
    destruct (forallb non_null Args) eqn:HA'; [|done].
    apply forallb_non_null in HA'. destruct H as [->|H]; [done|]. by destruct HA'.
  - intros this C' H. unfold ApplyInst_create in H.
    destruct (non_null Cal && forallb non_null Args); [|done].
    unfold allocate in H. injection H as <- <-. cbn [mem].
    eexists. split; [by apply ApplyInst_ctor_header|].
    split; [done|]. split.
    + cbn. apply to_unsigned_small. lia.
    + intros k v Hk. unfold getArguments, ApplyInst_ctor. cbn.
      rewrite to_unsigned_small by lia.
      by apply ArrayRef_at_slot.
  - unfold TupleInst_create, TupleInst_createImpl, allocate. simpl.
    set (this := align_up (brk C) al).
    eexists. split; [|split].
    + unfold TupleInst_ctor. rewrite store_values_below.
      * apply lookup_insert_eq.
      * done.
      * unfold getElementsStorage. lia.
    + simpl. apply to_unsigned_small. lia.
    + intros k v Hk. unfold getElements, TupleInst_ctor. simpl.
      rewrite to_unsigned_small by lia.
      by apply ArrayRef_at_slot.
Qed.

Lemma trailing_storage_holds_operands_witness :
  ∃ this C' I,
    ApplyInst_create 32 8 8 100 TyNone (Some 1) [Some 2; Some 3] empty_arena
      = Ret (this, C') ∧
    mem C' !! this = Some (ObjApply I) ∧
    Length (getArguments 32 this I) = 2 ∧
    ArrayRef_at 8 (mem C') (getArguments 32 this I) 1 = Ret (Some 3).
Proof.
  destruct (trailing_storage_holds_operands 32 24 8 8 100 TyNone (Some 1)
              [Some 2; Some 3] empty_arena
              ltac:(lia) ltac:(lia) ltac:(lia) ltac:(vm_compute; discriminate))
    as (Hrun & _ & Hres & _).
  destruct Hrun as (this & C' & Hrun);
    [discriminate
    |intros H; apply elem_of_cons in H as [H|H]; [discriminate H|];
     apply elem_of_cons in H as [H|H]; [discriminate H|]; by apply elem_of_nil in H|].
  destruct (Hres this C' Hrun) as (I & H1 & _ & H2 & H3).
  exists this, C', I. split; [exact Hrun|]. split; [exact H1|]. split; [exact H2|].
  exact (H3 1%nat (Some 3) eq_refl).
Defined.

Lemma forallb_replicate {A} (f : A -> bool) (n : nat) (x : A) :
  f x = true -> forallb f (replicate n x) = true.
Proof. intros H. induction n as [|n IH]; simpl; [done|]. by rewrite H, IH. Qed.

Lemma huge_args_length : Z.of_nat (length huge_args) = 2 ^ 32.
Proof.
  unfold huge_args. rewrite length_replicate. apply Z2Nat.id. apply Z.pow_nonneg. lia.
Qed.

Lemma huge_args_non_null : forallb non_null huge_args = true.
Proof. unfold huge_args. by apply forallb_replicate. Qed.

(** C5, as stated, fails: the count of an [ApplyInst] is an [unsigned]
    field, so no instruction has a [getArguments()] of length 2^32; created
    with 2^32 non-null arguments, the instruction has a [getArguments()] of
    length 0. *)
Lemma trailing_storage_count_wraps :
  Z.of_nat (length huge_args) = 2 ^ 32 ∧
  (∀ this I, 0 <= apply_NumArgs I <= UINT_MAX ->
     Length (getArguments 32 this I) ≠ Z.of_nat (length huge_args)) ∧
  ∃ this C' I,
    ApplyInst_create 32 8 8 100 TyNone (Some 1) huge_args empty_arena = Ret (this, C') ∧
    mem C' !! this = Some (ObjApply I) ∧
    Length (getArguments 32 this I) = 0.
Proof.
  split; [exact huge_args_length|]. split.
  - intros this I HI. rewrite huge_args_length. cbn [getArguments Length].
    unfold UINT_MAX in HI. lia.
  - eexists _, _, _. split.
    + apply ApplyInst_create_run; [reflexivity|exact huge_args_non_null].
    + cbn [mem]. split; [apply ApplyInst_ctor_header; lia|].
      cbn [getArguments Length apply_NumArgs].
      rewrite huge_args_length. reflexivity.
Qed.

(** ** Block membership: list and store facts *)

Lemma range_split (first last : nat) (l : list addr) :
  (first ≤ last)%nat ->
  l = take first l ++ range_of first last l ++ drop last l.
Proof.
  intros H. unfold range_of.
  rewrite <- (take_drop first l) at 1. f_equal.
  rewrite <- (take_drop (last - first) (drop first l)) at 1. f_equal.
  rewrite drop_drop. f_equal. lia.
Qed.

Lemma range_perm (first last : nat) (l : list addr) :
  (first ≤ last)%nat ->
  l ≡ₚ range_of first last l ++ without_range first last l.
Proof.
  intros H. rewrite (range_split first last l H) at 1.
  unfold without_range. apply Permutation_app_swap_app.
Qed.

Lemma linked_perm (pos : nat) (moved l2 : list addr) :
  take pos l2 ++ moved ++ drop pos l2 ≡ₚ moved ++ l2.
Proof.
  rewrite Permutation_app_swap_app. by rewrite take_drop.
Qed.

Lemma set_parent_idemp (p : BasicBlockPtr) (I : Instruction) :
  set_parent p (set_parent p I) = set_parent p I.
Proof. reflexivity. Qed.

Lemma reparent_lookup (p : BasicBlockPtr) (range : list addr)
    (m : gmap addr Instruction) (i : addr) :
  foldr (alter (set_parent p)) m range !! i =
  if decide (i ∈ range) then set_parent p <$> m !! i else m !! i.
Proof.
  induction range as [|x range IH].
  - simpl foldr. case_decide as H; [|done]. by apply elem_of_nil in H.
  - simpl foldr. destruct (decide (x = i)) as [->|Hne].
    + rewrite lookup_alter_eq, IH.
      rewrite (decide_True (P := i ∈ i :: range)) by (apply elem_of_cons; auto).
      case_decide; [|done].
      destruct (m !! i); simpl; [|done]. by rewrite set_parent_idemp.
    + rewrite lookup_alter_ne, IH by done.
      destruct (decide (i ∈ range)) as [Hin|Hnin].
      * rewrite decide_True; [done|]. apply elem_of_cons; auto.
      * rewrite decide_False; [done|]. rewrite elem_of_cons.
        intros [?|?]; [congruence|done].
Qed.

Lemma consistent_empty : consistent empty_state.
Proof.
  split; simpl.
  - intros b l i H. by rewrite lookup_empty in H.
  - intros b l H. by rewrite lookup_empty in H.
  - intros i I b H. by rewrite lookup_empty in H.
Qed.

Lemma listed_block_unique (s : CFGState) (b b' : addr) (l l' : list addr) (i : addr) :
  consistent s ->
  blocks s !! b = Some l -> i ∈ l ->
  blocks s !! b' = Some l' -> i ∈ l' -> b = b'.
Proof.
  intros Hc Hb Hi Hb' Hi'.
  destruct (listed_parent s Hc b l i Hb Hi) as (I & HI & HP).
  destruct (listed_parent s Hc b' l' i Hb' Hi') as (I' & HI' & HP').
  congruence.
Qed.

Lemma detached_unlisted (s : CFGState) (b : addr) (l : list addr) (i : addr) :
  consistent s ->
  parent_of s i = Some None ->
  blocks s !! b = Some l -> i ∉ l.
Proof.
  intros Hc Hp Hb Hi.
  destruct (listed_parent s Hc b l i Hb Hi) as (I & HI & HP).
  unfold parent_of in Hp. rewrite HI in Hp. simpl in Hp.
  unfold getParent in Hp. congruence.
Qed.

Lemma new_Instruction_consistent (i : addr) K L T (s s' : CFGState) :
  consistent s -> new_Instruction i K L T s = Ret s' -> consistent s'.
Proof.
  intros Hc H. unfold new_Instruction in H.
  destruct (insts s !! i) eqn:Hi; [done|]. injection H as <-.
  split; simpl.
  - intros b l j Hb Hj.
    destruct (listed_parent s Hc b l j Hb Hj) as (I & HI & HP).
    exists I. split; [|done]. rewrite lookup_insert_ne; [done|congruence].
  - apply (listed_once s Hc).
  - intros j I b HI HP. destruct (decide (i = j)) as [->|Hne].
    + rewrite lookup_insert_eq in HI. injection HI as <-. done.
    + rewrite lookup_insert_ne in HI by done. by apply (attached_listed s Hc j I b).
Qed.

Lemma new_BasicBlock_consistent (b : addr) (s s' : CFGState) :
  consistent s -> new_BasicBlock b s = Ret s' -> consistent s'.
Proof.
  intros Hc H. unfold new_BasicBlock in H.
  destruct (blocks s !! b) eqn:Hb; [done|]. injection H as <-.
  split; simpl.
  - intros b' l j Hb' Hj. destruct (decide (b = b')) as [->|Hne].
    + rewrite lookup_insert_eq in Hb'. injection Hb' as <-.
      by apply elem_of_nil in Hj.
    + rewrite lookup_insert_ne in Hb' by done.
      by apply (listed_parent s Hc b' l j).
  - intros b' l Hb'. destruct (decide (b = b')) as [->|Hne].
    + rewrite lookup_insert_eq in Hb'. injection Hb' as <-. apply NoDup_nil_2.
    + rewrite lookup_insert_ne in Hb' by done. by apply (listed_once s Hc b' l).
  - intros j I b' HI HP.
    destruct (attached_listed s Hc j I b' HI HP) as (l & Hl & Hj).
    exists l. split; [|done]. rewrite lookup_insert_ne; [done|congruence].
Qed.

Lemma iplist_insert_consistent (b : addr) (pos : nat) (i : addr) (s s' : CFGState) :
  consistent s -> iplist_insert b pos i s = Ret s' -> consistent s'.
Proof.
  intros Hc H. unfold iplist_insert in H.
  destruct (blocks s !! b) as [l|] eqn:Hb; [|done].
  destruct (insts s !! i) as [ins|] eqn:Hi; [|done].
  destruct (ParentBB ins) eqn:Hp; [done|].
  case_decide as Hpos; [|done]. injection H as <-.
  assert (Hfresh : ∀ b' l', blocks s !! b' = Some l' -> i ∉ l').
  { intros b' l' Hb'. apply (detached_unlisted s b' l' i Hc); [|done].
    unfold parent_of. rewrite Hi. simpl. unfold getParent. by rewrite Hp. }
  assert (Hperm : take pos l ++ i :: drop pos l ≡ₚ i :: l).
  { rewrite <- Permutation_middle. by rewrite take_drop. }
  split; simpl.
  - intros b' l' j Hb' Hj. destruct (decide (b = b')) as [<-|Hne].
    + rewrite lookup_insert_eq in Hb'. injection Hb' as <-.
      rewrite Hperm in Hj. apply elem_of_cons in Hj as [->|Hj].
      * rewrite lookup_alter_eq, Hi. simpl. eauto.
      * destruct (listed_parent s Hc b l j Hb Hj) as (I & HI & HP).
        exists I. split; [|done]. rewrite lookup_alter_ne; [done|].
        intros ->. by apply (Hfresh b l Hb).
    + rewrite lookup_insert_ne in Hb' by done.
      destruct (listed_parent s Hc b' l' j Hb' Hj) as (I & HI & HP).
      exists I. split; [|done]. rewrite lookup_alter_ne; [done|].
      intros ->. by apply (Hfresh b' l' Hb').
  - intros b' l' Hb'. destruct (decide (b = b')) as [<-|Hne].
    + rewrite lookup_insert_eq in Hb'. injection Hb' as <-.
      rewrite Hperm. apply NoDup_cons. split; [by apply (Hfresh b l)|].
      by apply (listed_once s Hc b l).
    + rewrite lookup_insert_ne in Hb' by done. by apply (listed_once s Hc b' l').
  - intros j I b' HI HP. destruct (decide (i = j)) as [<-|Hne].
    + rewrite lookup_alter_eq, Hi in HI. simpl in HI. injection HI as <-.
      simpl in HP. injection HP as <-.
      eexists. rewrite lookup_insert_eq. split; [done|].
      rewrite Hperm. apply elem_of_cons. by left.
    + rewrite lookup_alter_ne in HI by done.
      destruct (attached_listed s Hc j I b' HI HP) as (l' & Hl' & Hj).
      destruct (decide (b = b')) as [<-|Hnb].
      * eexists. rewrite lookup_insert_eq. split; [done|].
        rewrite Hperm. apply elem_of_cons. right. congruence.
      * exists l'. by rewrite lookup_insert_ne.
Qed.

Lemma iplist_remove_consistent (b i : addr) (s s' : CFGState) :
  consistent s -> iplist_remove b i s = Ret s' -> consistent s'.
Proof.
  intros Hc H. unfold iplist_remove in H.
  destruct (blocks s !! b) as [l|] eqn:Hb; [|done].
  case_decide as Hi; [|done]. injection H as <-.
  split; simpl.
  - intros b' l' j Hb' Hj. destruct (decide (b = b')) as [<-|Hne].
    + rewrite lookup_insert_eq in Hb'. injection Hb' as <-.
      apply list_elem_of_filter in Hj as [Hji Hj].
      destruct (listed_parent s Hc b l j Hb Hj) as (I & HI & HP).
      exists I. split; [|done]. by rewrite lookup_alter_ne.
    + rewrite lookup_insert_ne in Hb' by done.
      destruct (listed_parent s Hc b' l' j Hb' Hj) as (I & HI & HP).
      exists I. split; [|done]. rewrite lookup_alter_ne; [done|].
      intros ->. apply Hne. by apply (listed_block_unique s b b' l l' j).
  - intros b' l' Hb'. destruct (decide (b = b')) as [<-|Hne].
    + rewrite lookup_insert_eq in Hb'. injection Hb' as <-.
      apply NoDup_filter. by apply (listed_once s Hc b l).
    + rewrite lookup_insert_ne in Hb' by done. by apply (listed_once s Hc b' l').
  - intros j I b' HI HP. destruct (decide (i = j)) as [<-|Hne].
    + rewrite lookup_alter_eq in HI. destruct (insts s !! i); [|done].
      simpl in HI. injection HI as <-. done.
    + rewrite lookup_alter_ne in HI by done.
      destruct (attached_listed s Hc j I b' HI HP) as (l' & Hl' & Hj).
      destruct (decide (b = b')) as [<-|Hnb].
      * eexists. rewrite lookup_insert_eq. split; [done|].
        apply list_elem_of_filter. split; [congruence|]. congruence.
      * exists l'. by rewrite lookup_insert_ne.
Qed.

(** What [remove] leaves behind. *)
Lemma iplist_remove_spec (b i : addr) (l : list addr) (s : CFGState) :
  blocks s !! b = Some l -> i ∈ l ->
  iplist_remove b i s =
    Ret {| insts := alter (set_parent None) i (insts s);
           blocks := <[b := filter (fun j => j ≠ i) l]> (blocks s) |}.
Proof.
  intros Hb Hi. unfold iplist_remove. rewrite Hb.
  by rewrite decide_True.
Qed.

Lemma removeFromParent_consistent (i : addr) (s s' : CFGState) :
  consistent s -> removeFromParent i s = Ret s' -> consistent s'.
Proof.
  intros Hc H. unfold removeFromParent in H.
  destruct (parent_of s i) as [[b|]|]; try done.
  by apply (iplist_remove_consistent b i s s').
Qed.

Lemma removeFromParent_detaches (i : addr) (s s' : CFGState) :
  removeFromParent i s = Ret s' -> parent_of s' i = Some None.
Proof.
  intros H. unfold removeFromParent in H.
  destruct (parent_of s i) as [[b|]|] eqn:Hp; try done.
  unfold iplist_remove in H.
  destruct (blocks s !! b) as [l|]; [|done].
  case_decide; [|done]. injection H as <-.
  unfold parent_of in *. simpl. rewrite lookup_alter_eq.
  by destruct (insts s !! i).
Qed.

Lemma destroy_consistent (i : addr) (s : CFGState) :
  consistent s -> parent_of s i = Some None -> consistent (destroy i s).
Proof.
  intros Hc Hp. split; simpl.
  - intros b l j Hb Hj.
    destruct (listed_parent s Hc b l j Hb Hj) as (I & HI & HP).
    exists I. split; [|done]. rewrite lookup_delete_ne; [done|].
    intros ->. by apply (detached_unlisted s b l j Hc Hp Hb).
  - apply (listed_once s Hc).
  - intros j I b HI HP. destruct (decide (i = j)) as [<-|Hne].
    + by rewrite lookup_delete_eq in HI.
    + rewrite lookup_delete_ne in HI by done.
      by apply (attached_listed s Hc j I b).
Qed.

Lemma eraseFromParent_consistent (operands : addr -> list CFGValue) (i : addr)
    (s s' : CFGState) :
  consistent s -> eraseFromParent operands i s = Ret s' -> consistent s'.
Proof.
  intros Hc H. unfold eraseFromParent in H.
  destruct (still_referenced operands i s); [done|].
  destruct (removeFromParent i s) as [s1|] eqn:H1; [|done].
  simpl in H. injection H as <-.
  apply destroy_consistent.
  - by apply (removeFromParent_consistent i s s1).
  - by apply (removeFromParent_detaches i s s1).
Qed.

Section Splice.
Variables (s : CFGState) (b1 b2 : addr) (pos first last : nat) (l1 l2 : list addr).
Hypothesis Hc : consistent s.
Hypothesis Hb1 : blocks s !! b1 = Some l1.
Hypothesis Hrange : (first ≤ last ∧ last ≤ length l1)%nat.
Hypothesis Hb2 : <[b1 := without_range first last l1]> (blocks s) !! b2 = Some l2.
Hypothesis Hpos : (pos ≤ length l2)%nat.

Local Abbreviation moved := (range_of first last l1).
Local Abbreviation rest := (without_range first last l1).
Local Abbreviation linked := (take pos l2 ++ moved ++ drop pos l2).
Local Abbreviation spliced :=
  {| insts := foldr (alter (set_parent (Some b2))) (insts s) moved;
     blocks := <[b2 := linked]> (<[b1 := rest]> (blocks s)) |}.

Lemma splice_eval : iplist_splice b2 pos b1 first last s = Ret spliced.
Proof.
  unfold iplist_splice. rewrite Hb1.
  rewrite decide_True by done. rewrite Hb2.
  by rewrite decide_True.
Qed.

Lemma moved_or_rest (i : addr) : i ∈ l1 ↔ i ∈ moved ∨ i ∈ rest.
Proof using Hrange.
  rewrite (range_perm first last l1) at 1 by apply Hrange. apply elem_of_app.
Qed.

Lemma moved_rest_NoDup :
  NoDup moved ∧ (∀ i, i ∈ moved -> i ∉ rest) ∧ NoDup rest.
Proof using Hc Hb1 Hrange.
  apply NoDup_app. rewrite <- range_perm by apply Hrange.
  by apply (listed_once s Hc b1 l1).
Qed.

Lemma target_cases : (b1 = b2 ∧ l2 = rest) ∨ (b1 ≠ b2 ∧ blocks s !! b2 = Some l2).
Proof.
  destruct (decide (b1 = b2)) as [<-|Hne].
  - left. rewrite lookup_insert_eq in Hb2. by injection Hb2 as <-.
  - right. by rewrite lookup_insert_ne in Hb2.
Qed.

Lemma target_parent (i : addr) :
  i ∈ l2 ->
  (i ∉ range_of first last l1) ∧ ∃ I, insts s !! i = Some I ∧ ParentBB I = Some b2.
Proof.
  intros Hi. destruct target_cases as [[Heq Hl2]|[Hne H2]].
  - rewrite Hl2 in Hi. split.
    + intros Hm. by apply (proj1 (proj2 moved_rest_NoDup) i).
    + rewrite <- Heq. apply (listed_parent s Hc b1 l1 i Hb1).
      apply moved_or_rest. by right.
  - split.
    + intros Hm. apply Hne.
      apply (listed_block_unique s b1 b2 l1 l2 i); try done.
      apply moved_or_rest. by left.
    + by apply (listed_parent s Hc b2 l2 i).
Qed.

Lemma target_NoDup : NoDup l2.
Proof.
  destruct target_cases as [[Heq Hl2]|[Hne H2]].
  - rewrite Hl2. apply moved_rest_NoDup.
  - by apply (listed_once s Hc b2 l2).
Qed.

Lemma linked_elem (i : addr) : i ∈ linked ↔ i ∈ moved ∨ i ∈ l2.
Proof. rewrite linked_perm. apply elem_of_app. Qed.

Lemma spliced_blocks (b : addr) :
  blocks spliced !! b =
  if decide (b = b2) then Some linked
  else if decide (b = b1) then Some rest else blocks s !! b.
Proof.
  simpl. case_decide as H2; [subst; apply lookup_insert_eq|].
  rewrite lookup_insert_ne by done.
  case_decide as H1; [subst; apply lookup_insert_eq|].
  by rewrite lookup_insert_ne.
Qed.

Lemma spliced_consistent : consistent spliced.
Proof.
  destruct moved_rest_NoDup as (Hnm & Hdisj & Hnr).
  split.
  - intros b l i Hb Hi. rewrite spliced_blocks in Hb.
    simpl. rewrite reparent_lookup.
    destruct (decide (b = b2)) as [->|Hn2].
    + injection Hb as <-. apply linked_elem in Hi as [Hi|Hi].
      * rewrite decide_True by done.
        destruct (listed_parent s Hc b1 l1 i Hb1) as (I & HI & HP).
        { apply moved_or_rest. by left. }
        rewrite HI. simpl. eauto.
      * destruct (target_parent i Hi) as (Hnot & I & HI & HP).
        rewrite decide_False by done. eauto.
    + destruct (decide (b = b1)) as [->|Hn1].
      * injection Hb as <-.
        rewrite decide_False by (intros Hm; by apply (Hdisj i)).
        apply (listed_parent s Hc b1 l1 i Hb1). apply moved_or_rest. by right.
      * rewrite decide_False.
        { by apply (listed_parent s Hc b l i). }
        intros Hm. apply Hn1.
        apply (listed_block_unique s b b1 l l1 i); try done.
        apply moved_or_rest. by left.
  - intros b l Hb. rewrite spliced_blocks in Hb.
    destruct (decide (b = b2)) as [->|Hn2].
    + injection Hb as <-. rewrite linked_perm. apply NoDup_app.
      split; [done|]. split; [|apply target_NoDup].
      intros i Hm Hi. by apply (proj1 (target_parent i Hi)).
    + destruct (decide (b = b1)) as [->|Hn1].
      * by injection Hb as <-.
      * by apply (listed_once s Hc b l).
  - intros i I b HI HP. simpl in HI. rewrite reparent_lookup in HI.
    destruct (decide (i ∈ moved)) as [Hm|Hm].
    + destruct (insts s !! i) as [I0|]; [|done]. simpl in HI.
      injection HI as <-. simpl in HP. injection HP as <-.
      exists linked. rewrite spliced_blocks, decide_True by done.
      split; [done|]. apply linked_elem. by left.
    + destruct (attached_listed s Hc i I b HI HP) as (l & Hl & Hi).
      rewrite spliced_blocks.
      destruct (decide (b = b2)) as [->|Hn2].
      * exists linked. split; [done|]. apply linked_elem. right.
        destruct target_cases as [[Heq Hl2]|[Hne H2]].
        -- rewrite <- Heq, Hb1 in Hl. injection Hl as <-.
           rewrite Hl2. apply moved_or_rest in Hi as [Hi|Hi]; done.
        -- congruence.
      * destruct (decide (b = b1)) as [->|Hn1].
        -- exists rest. split; [done|].
           rewrite Hb1 in Hl. injection Hl as <-.
           apply moved_or_rest in Hi as [Hi|Hi]; done.
        -- by exists l.
Qed.
End Splice.

Lemma iplist_splice_consistent (b2 : addr) (pos : nat) (b1 : addr) (first last : nat)
    (s s' : CFGState) :
  consistent s -> iplist_splice b2 pos b1 first last s = Ret s' -> consistent s'.
Proof.
  intros Hc H. unfold iplist_splice in H.
  destruct (blocks s !! b1) as [l1|] eqn:Hb1; [|done].
  case_decide as Hr; [|done].
  destruct (<[b1:=without_range first last l1]> (blocks s) !! b2) as [l2|] eqn:Hb2;
    [|done].
  case_decide as Hp; [|done]. injection H as <-.
  unfold transferNodesFromList. simpl.
  eapply spliced_consistent; eassumption.
Qed.

Lemma step_consistent (o : Op) (s s' : CFGState) :
  consistent s -> step o s = Ret s' -> consistent s'.
Proof.
  intros Hc H. destruct o; simpl in H.
  - by apply (new_Instruction_consistent i K L T s).
  - by apply (new_BasicBlock_consistent b s).
  - by apply (iplist_insert_consistent b pos i s).
  - by apply (iplist_remove_consistent b i s).
  - unfold iplist_erase in H.
    destruct (iplist_remove b i s) as [s1|] eqn:H1; [|done].
    simpl in H. injection H as <-.
    by apply (iplist_remove_consistent b i s).
  - eapply iplist_splice_consistent; eassumption.
  - by injection H as <-.
  - by apply (removeFromParent_consistent i s).
  - by apply (eraseFromParent_consistent operands i s).
Qed.

Lemma run_consistent (ops : list Op) (s s' : CFGState) :
  consistent s -> run ops s = Ret s' -> consistent s'.
Proof.
  revert s. induction ops as [|o ops IH]; intros s Hc H; simpl in H.
  - by injection H as <-.
  - destruct (step o s) as [s1|] eqn:H1; [|done]. simpl in H.
    apply (IH s1); [|done]. by apply (step_consistent o s).
Qed.

Lemma reachable_consistent (s : CFGState) : reachable s -> consistent s.
Proof. intros [ops H]. apply (run_consistent ops empty_state); [apply consistent_empty|done]. Qed.

Lemma run_app (ops1 ops2 : list Op) (s : CFGState) :
  run (ops1 ++ ops2) s = bind (run ops1 s) (run ops2).
Proof.
  revert s. induction ops1 as [|o ops1 IH]; intros s; simpl; [done|].
  destruct (step o s); simpl; [apply IH|done].
Qed.

Lemma reachable_step (o : Op) (s s' : CFGState) :
  reachable s -> step o s = Ret s' -> reachable s'.
Proof.
  intros [ops H] Hs. exists (ops ++ [o]).
  rewrite run_app, H. simpl. by rewrite Hs.
Qed.

(** ** Parent consistency, removal and transfer *)

Lemma removeFromParent_attached (s : CFGState) (b : addr) (l : list addr) (i : addr) :
  reachable s -> blocks s !! b = Some l -> i ∈ l ->
  ∃ I s',
    insts s !! i = Some I ∧ ParentBB I = Some b ∧
    removeFromParent i s = Ret s' ∧
    insts s' !! i = Some (set_parent None I) ∧
    blocks s' !! b = Some (filter (fun j => j ≠ i) l) ∧
    (∀ j, j ≠ i -> insts s' !! j = insts s !! j) ∧
    reachable s'.
Proof.
  intros Hr Hb Hi. pose proof (reachable_consistent s Hr) as Hc.
  destruct (listed_parent s Hc b l i Hb Hi) as (I & HI & HP).
  assert (Hpar : parent_of s i = Some (Some b)).
  { unfold parent_of. rewrite HI. simpl. unfold getParent. by rewrite HP. }
  assert (Hrm : removeFromParent i s =
    Ret {| insts := alter (set_parent None) i (insts s);
           blocks := <[b := filter (fun j => j ≠ i) l]> (blocks s) |}).
  { unfold removeFromParent. rewrite Hpar. by apply iplist_remove_spec. }
  eexists I, _. split; [done|]. split; [done|]. split; [exact Hrm|].
  split; [simpl; by rewrite lookup_alter_eq, HI|].
  split; [simpl; apply lookup_insert_eq|].
  split; [intros j Hj; simpl; by apply lookup_alter_ne|].
  by apply (reachable_step (OpRemoveFromParent i) s).
Qed.

(** C3.  In every state the operations can build, an instruction listed in a
    block has that block as its parent; [removeFromParent()] on it succeeds,
    leaves the instruction alive with its other fields unchanged, clears its
    parent and leaves it in no instruction list. *)
Theorem parent_consistency (s : CFGState) (b : addr) (l : list addr) (i : addr) :
  reachable s -> blocks s !! b = Some l -> i ∈ l ->
  parent_of s i = Some (Some b) ∧
  ∃ I s',
    insts s !! i = Some I ∧
    removeFromParent i s = Ret s' ∧
    insts s' !! i = Some (set_parent None I) ∧
    parent_of s' i = Some None ∧
    blocks s' !! b = Some (filter (fun j => j ≠ i) l) ∧
    (∀ b' l', blocks s' !! b' = Some l' -> i ∉ l') ∧
    reachable s'.
Proof.
  intros Hr Hb Hi.
  destruct (removeFromParent_attached s b l i Hr Hb Hi)
    as (I & s' & HI & HP & Hrm & HI' & Hb' & _ & Hr').
  split.
  { unfold parent_of. rewrite HI. simpl. unfold getParent. by rewrite HP. }
  exists I, s'. split; [done|]. split; [done|]. split; [done|].
  pose proof (removeFromParent_detaches i s s' Hrm) as Hdet.
  split; [done|]. split; [done|]. split; [|done].
  intros b' l' Hl'.
  by apply (detached_unlisted s' b' l' i (reachable_consistent s' Hr') Hdet).
Qed.

(** C4.  Splicing the range [first, last) of the list of [b1] into the list
    of [b2] succeeds; afterwards every moved instruction has parent [b2], the
    list of [b2] holds the range as one run in its original order, and, when
    the blocks differ, the list of [b1] is what it was without the range and
    holds none of the moved instructions.  [l2] is the list of [b2] once the
    range is unlinked, which is its list before when the blocks differ. *)
Theorem transfer_reparents_range (s : CFGState) (b1 b2 : addr) (pos first last : nat)
    (l1 l2 : list addr) :
  reachable s ->
  blocks s !! b1 = Some l1 ->
  (first ≤ last ∧ last ≤ length l1)%nat ->
  <[b1 := without_range first last l1]> (blocks s) !! b2 = Some l2 ->
  (pos ≤ length l2)%nat ->
  ∃ s',
    iplist_splice b2 pos b1 first last s = Ret s' ∧
    l1 = take first l1 ++ range_of first last l1 ++ drop last l1 ∧
    (∀ i, i ∈ range_of first last l1 -> parent_of s' i = Some (Some b2)) ∧
    blocks s' !! b2 = Some (take pos l2 ++ range_of first last l1 ++ drop pos l2) ∧
    (b1 ≠ b2 ->
       blocks s !! b2 = Some l2 ∧
       blocks s' !! b1 = Some (without_range first last l1) ∧
       ∀ i, i ∈ range_of first last l1 -> i ∉ without_range first last l1) ∧
    (∀ i, i ∉ range_of first last l1 -> insts s' !! i = insts s !! i) ∧
    reachable s'.
Proof.
  intros Hr Hb1 Hrange Hb2 Hpos.
  pose proof (reachable_consistent s Hr) as Hc.
  pose proof (splice_eval s b1 b2 pos _ _ l1 l2 Hb1 Hrange Hb2 Hpos) as Hev.
  eexists. split; [exact Hev|].
  split; [apply range_split; lia|].
  split.
  { intros i Hi. unfold parent_of. simpl. rewrite reparent_lookup.
    rewrite decide_True by done.
    destruct (listed_parent s Hc b1 l1 i Hb1) as (I & HI & HP).
    { apply (moved_or_rest _ _ l1 Hrange i). by left. }
    by rewrite HI. }
  split; [simpl; apply lookup_insert_eq|].
  split.
  { intros Hne. split; [by rewrite lookup_insert_ne in Hb2|].
    split.
    - simpl. rewrite lookup_insert_ne by done. apply lookup_insert_eq.
    - apply (moved_rest_NoDup s b1 _ _ l1 Hc Hb1 Hrange). }
  split.
  { intros i Hi. simpl. rewrite reparent_lookup. by rewrite decide_False. }
  eapply (reachable_step (OpSplice b2 pos b1 _ _)); [exact Hr|]. exact Hev.
Qed.

Lemma example_state_reachable : reachable example_state.
Proof. exists example_ops. vm_compute. reflexivity. Defined.

Lemma parent_consistency_witness :
  parent_of example_state 2 = Some (Some 10) ∧
  ∃ s', removeFromParent 2 example_state = Ret s' ∧
        parent_of s' 2 = Some None ∧
        blocks s' !! 10 = Some [1; 3].
Proof.
  destruct (parent_consistency example_state 10 [1; 2; 3] 2
              example_state_reachable eq_refl
              ltac:(apply elem_of_cons; right; apply elem_of_cons; by left))
    as (H1 & I & s' & _ & H2 & _ & H3 & H4 & _).
  split; [exact H1|]. exists s'. split; [exact H2|]. split; [exact H3|exact H4].
Defined.

Lemma transfer_reparents_range_witness :
  ∃ s', iplist_splice 20 0 10 1 3 example_state = Ret s' ∧
        parent_of s' 2 = Some (Some 20) ∧
        parent_of s' 3 = Some (Some 20) ∧
        blocks s' !! 20 = Some [2; 3; 4] ∧
        blocks s' !! 10 = Some [1].
Proof.
  destruct (transfer_reparents_range example_state 10 20 0 1 3 [1; 2; 3] [4]
              example_state_reachable eq_refl
              ltac:(simpl; lia) eq_refl ltac:(simpl; lia))
    as (s' & H1 & _ & H2 & H3 & H4 & _).
  exists s'. split; [exact H1|].
  split; [apply H2; apply elem_of_cons; by left|].
  split; [apply H2; apply elem_of_cons; right; apply elem_of_cons; by left|].
  split; [exact H3|].
  exact (proj1 (proj2 (H4 ltac:(discriminate)))).
Defined.

(** ** Storage *)

Lemma alter_storage_kept (f : Instruction -> Instruction) (j : addr)
    (m : gmap addr Instruction) (i : addr) :
  is_Some (m !! i) -> is_Some (alter f j m !! i).
Proof.
  intros [I HI]. destruct (decide (j = i)) as [->|Hne].
  - rewrite lookup_alter_eq, HI. by eexists.
  - rewrite lookup_alter_ne, HI by done. by eexists.
Qed.

Lemma iplist_remove_storage_kept (b i : addr) (s s' : CFGState) :
  iplist_remove b i s = Ret s' -> storage_kept s s'.
Proof.
  intros H j Hj. unfold iplist_remove in H.
  destruct (blocks s !! b); [|done]. case_decide; [|done].
  injection H as <-. simpl. by apply alter_storage_kept.
Qed.

Lemma removeFromParent_storage_kept (i : addr) (s s' : CFGState) :
  removeFromParent i s = Ret s' -> storage_kept s s'.
Proof.
  intros H. unfold removeFromParent in H.
  destruct (parent_of s i) as [[b|]|]; try done.
  by apply (iplist_remove_storage_kept b i).
Qed.

Lemma step_storage_kept (o : Op) (s s' : CFGState) :
  step o s = Ret s' ->
  (∀ operands i, o ≠ OpEraseFromParent operands i) ->
  storage_kept s s'.
Proof.
  intros H Hne j Hj. destruct o; simpl in H.
  - unfold new_Instruction in H. destruct (insts s !! i) eqn:Hi; [done|].
    injection H as <-. simpl. rewrite lookup_insert_ne; [done|].
    intros ->. rewrite Hi in Hj. by destruct Hj.
  - unfold new_BasicBlock in H. destruct (blocks s !! b); [done|].
    by injection H as <-.
  - unfold iplist_insert in H.
    destruct (blocks s !! b); [|done]. destruct (insts s !! i) as [ins|]; [|done].
    destruct (ParentBB ins); [done|]. case_decide; [|done].
    injection H as <-. simpl. by apply alter_storage_kept.
  - by apply (iplist_remove_storage_kept b i s s').
  - unfold iplist_erase in H.
    destruct (iplist_remove b i s) as [s1|] eqn:H1; [|done].
    simpl in H. injection H as <-.
    by apply (iplist_remove_storage_kept b i s s1).
  - unfold iplist_splice in H.
    destruct (blocks s !! b1) as [l1|]; [|done]. case_decide; [|done].
    match type of H with
    | match ?x with _ => _ end = _ => destruct x as [l2|]; [|done]
    end.
    case_decide; [|done]. injection H as <-. simpl.
    rewrite reparent_lookup. destruct Hj as [I HI]. rewrite HI.
    case_decide; by eexists.
  - by injection H as <-.
  - by apply (removeFromParent_storage_kept i s s').
  - by destruct (Hne operands i).
Qed.

Lemma still_referenced_spec (operands : addr -> list CFGValue) (i : addr) (s : CFGState) :
  still_referenced operands i s = true ↔
  ∃ j ins, insts s !! j = Some ins ∧ j ≠ i ∧ ParentBB ins ≠ None ∧ Some i ∈ operands j.
Proof.
  unfold still_referenced. rewrite existsb_exists. split.
  - intros ([j ins] & Hin & H).
    apply list_elem_of_In, elem_of_map_to_list in Hin.
    apply andb_prop in H as [H H3]. apply andb_prop in H as [H1 H2].
    apply bool_decide_eq_true in H1, H2, H3. by exists j, ins.
  - intros (j & ins & Hin & H1 & H2 & H3). exists (j, ins). split.
    + by apply list_elem_of_In, elem_of_map_to_list.
    + rewrite !andb_true_iff, !bool_decide_eq_true. done.
Qed.

(** C9.  [deleteNode] changes nothing: the instruction keeps its storage and
    its contents; erasing through the list keeps the storage of every
    instruction and only clears the parent of the erased one.  An operation
    after which an instruction no longer holds storage is [eraseFromParent]
    on that instruction; on an attached instruction it aborts when another
    attached instruction still references it, and otherwise succeeds,
    unlinks it from every list and returns its storage. *)
Theorem deleteNode_keeps_storage :
  (∀ V s, deleteNode V s = s) ∧
  (∀ b i s s', iplist_erase b i s = Ret s' ->
     ∀ j, insts s' !! j =
          if decide (j = i) then set_parent None <$> insts s !! j
          else insts s !! j) ∧
  (∀ o s s' i, step o s = Ret s' ->
     is_Some (insts s !! i) -> insts s' !! i = None ->
     ∃ operands, o = OpEraseFromParent operands i) ∧
  (∀ operands s b l i, reachable s -> blocks s !! b = Some l -> i ∈ l ->
     (still_referenced operands i s = true ->
        eraseFromParent operands i s = Abort) ∧
     (still_referenced operands i s = false ->
        ∃ s', eraseFromParent operands i s = Ret s' ∧
              is_Some (insts s !! i) ∧
              insts s' !! i = None ∧
              (∀ b' l', blocks s' !! b' = Some l' -> i ∉ l') ∧
              (∀ j, j ≠ i -> insts s' !! j = insts s !! j))).
Proof.
  split; [done|]. split; [|split].
  - intros b i s s' H j. unfold iplist_erase in H.
    destruct (iplist_remove b i s) as [s1|] eqn:H1; [|done].
    simpl in H. injection H as <-. unfold iplist_remove in H1.
    destruct (blocks s !! b); [|done]. case_decide; [|done].
    injection H1 as <-. simpl. case_decide as Hj.
    + subst j. apply lookup_alter_eq.
    + by apply lookup_alter_ne.
  - intros o s s' i H Hi Hnone.
    destruct o as [| | | | | | | |operands j];
      try (destruct (step_storage_kept _ s s' H ltac:(discriminate) i Hi);
           congruence).
    simpl in H. unfold eraseFromParent in H.
    destruct (still_referenced operands j s); [done|].
    destruct (removeFromParent j s) as [s1|] eqn:H1; [|done].
    simpl in H. injection H as <-. simpl in Hnone.
    destruct (decide (j = i)) as [->|Hji]; [by exists operands|].
    rewrite lookup_delete_ne in Hnone by done.
    destruct (removeFromParent_storage_kept j s s1 H1 i Hi). congruence.
  - intros operands s b l i Hr Hb Hi. unfold eraseFromParent. split.
    + by intros ->.
    + intros ->.
      destruct (removeFromParent_attached s b l i Hr Hb Hi)
        as (I & s1 & HI & HP & Hrm & HI' & Hb' & Hothers & Hr').
      exists (destroy i s1). rewrite Hrm. simpl.
      split; [done|]. split; [by eexists|].
      split; [apply lookup_delete_eq|]. split.
      * intros b' l' Hl'.
        apply (detached_unlisted s1 b' l' i (reachable_consistent s1 Hr')); [|done].
        by apply (removeFromParent_detaches i s s1).
      * intros j Hj. rewrite lookup_delete_ne by done. by apply Hothers.
Qed.

Lemma deleteNode_keeps_storage_witness :
  deleteNode 3 example_state = example_state ∧
  eraseFromParent return_uses_literal 1 example_state = Abort ∧
  ∃ s', eraseFromParent return_uses_literal 3 example_state = Ret s' ∧
        insts s' !! 3 = None ∧
        blocks s' !! 10 = Some [1; 2].
Proof.
  split; [exact (proj1 deleteNode_keeps_storage 3 example_state)|].
  split.
  - exact (proj1 (proj2 (proj2 (proj2 deleteNode_keeps_storage))
             return_uses_literal example_state 10 [1; 2; 3] 1
             example_state_reachable eq_refl
             ltac:(apply elem_of_cons; by left)) eq_refl).
  - destruct (proj2 (proj2 (proj2 (proj2 deleteNode_keeps_storage))
                return_uses_literal example_state 10 [1; 2; 3] 3
                example_state_reachable eq_refl
                ltac:(apply elem_of_cons; right; apply elem_of_cons; right;
                      apply elem_of_cons; by left)) eq_refl)
      as (s' & H1 & _ & H2 & _).
    exists s'. split; [exact H1|]. split; [exact H2|].
    vm_compute in H1. injection H1 as <-. reflexivity.
Defined.

(** * Further properties *)

(** ** Range tests and the class hierarchy *)

Lemma agrees_term (E : ValueKindEnum) (k : ValueKind) :
  agrees_with_hierarchy E = true ->
  TermInst_classof E k = derives (Leaf k) CTermInst.
Proof.
  intros H. apply (agrees_at E k) in H. unfold agrees_on in H.
  apply andb_prop in H as [_ H]. by apply bool_decide_eq_true in H.
Qed.

Lemma range_test_between (lo hi a b c : Z) :
  (lo <=? a) && (a <=? hi) = true ->
  (lo <=? c) && (c <=? hi) = true ->
  a <= b <= c ->
  (lo <=? b) && (b <=? hi) = true.
Proof.
  intros Ha Hc Hb.
  apply andb_prop in Ha as [Ha1 Ha2]. apply andb_prop in Hc as [Hc1 Hc2].
  apply Z.leb_le in Ha1, Ha2, Hc1, Hc2.
  apply andb_true_intro. split; apply Z.leb_le; lia.
Qed.

(** X1.  The ordering constraint behind the range tests: under an
    enumeration that agrees with the class declarations, a kind whose
    enumerator lies between those of two allocation kinds is an allocation
    kind, and one between two terminator kinds is a terminator kind. *)
Theorem category_enumerators_contiguous (E : ValueKindEnum) (k1 k k2 : ValueKind) :
  agrees_with_hierarchy E = true ->
  enumerator E k1 <= enumerator E k <= enumerator E k2 ->
  (derives (Leaf k1) CAllocInst = true -> derives (Leaf k2) CAllocInst = true ->
     derives (Leaf k) CAllocInst = true) ∧
  (derives (Leaf k1) CTermInst = true -> derives (Leaf k2) CTermInst = true ->
     derives (Leaf k) CTermInst = true).
Proof.
  intros HE Hk. split; intros H1 H2.
  - rewrite <- (agrees_alloc E k1 HE) in H1. rewrite <- (agrees_alloc E k2 HE) in H2.
    rewrite <- (agrees_alloc E k HE).
    by apply (range_test_between _ _ (enumerator E k1) _ (enumerator E k2)).
  - rewrite <- (agrees_term E k1 HE) in H1. rewrite <- (agrees_term E k2 HE) in H2.
    rewrite <- (agrees_term E k HE).
    by apply (range_test_between _ _ (enumerator E k1) _ (enumerator E k2)).
Qed.

Lemma category_enumerators_contiguous_witness :
  derives (Leaf Return) CTermInst = true ∧ derives (Leaf Branch) CTermInst = true.
Proof.
  split.
  - exact (proj2 (category_enumerators_contiguous declaration_order
                    Unreachable Return CondBranch eq_refl
                    ltac:(vm_compute; split; discriminate)) eq_refl eq_refl).
  - exact (proj2 (category_enumerators_contiguous declaration_order
                    Unreachable Branch CondBranch eq_refl
                    ltac:(vm_compute; split; discriminate)) eq_refl eq_refl).
Defined.





(** ** Location accessors, all cases *)

(** X4.  [getLocExpr<T>] returns a node exactly when the location is that
    Expr node and the node is a [T]; it returns null exactly on the synthetic
    location; it aborts exactly on a Decl or Stmt location and on an Expr
    node that is not a [T]. *)
Theorem getLocExpr_cases (T : addr -> bool) (I : Instruction) :
  (∀ e, getLocExpr T I = Ret (Some e) ↔ Loc I = LocExpr e ∧ T e = true) ∧
  (getLocExpr T I = Ret None ↔ Loc I = LocNull) ∧
  (getLocExpr T I = Abort ↔
     (∃ d, Loc I = LocDecl d) ∨ (∃ s, Loc I = LocStmt s) ∨
     (∃ e, Loc I = LocExpr e ∧ T e = false)).
Proof.
  unfold getLocExpr. destruct (Loc I) as [|d|e'|s]; simpl.
  - split; [|split]; [intros e| |]; split; try done.
    + by intros [? _].
    + intros [[d H]|[[s H]|(e & H & _)]]; done.
  - split; [|split]; [intros e| |]; split; try done.
    + by intros [? _].
    + intros _. left. by exists d.
  - destruct (T e') eqn:HT; (split; [|split]; [intros e| |]; split; try done).
    + intros [= ->]. done.
    + intros [[= ->] _]. done.
    + intros [[d H]|[[s H]|(e & [= ->] & H)]]; try done. congruence.
    + intros [[= ->] H]. congruence.
    + intros _. right. right. by exists e'.
  - split; [|split]; [intros e| |]; split; try done.
    + by intros [? _].
    + intros _. right. left. by exists s.
Qed.

(** X5.  The three typed accessors are exclusive: when one of them returns a
    node, the other two abort on the same instruction, whatever types they
    are asked for. *)
Theorem typed_location_accessors_exclusive (T T1 T2 : addr -> bool)
    (I : Instruction) (n : addr) :
  (getLocDecl T I = Ret (Some n) ->
     getLocExpr T1 I = Abort ∧ getLocStmt T2 I = Abort) ∧
  (getLocExpr T I = Ret (Some n) ->
     getLocDecl T1 I = Abort ∧ getLocStmt T2 I = Abort) ∧
  (getLocStmt T I = Ret (Some n) ->
     getLocDecl T1 I = Abort ∧ getLocExpr T2 I = Abort).
Proof.
  unfold getLocDecl, getLocExpr, getLocStmt.
  destruct (Loc I) as [|d|e|s]; simpl; repeat split; try done.
Qed.

Lemma typed_location_accessors_exclusive_witness :
  getLocDecl AnyNode (store_base (StoreInst_new (FromAssignStmt 9) None None)) = Abort ∧
  getLocExpr AnyNode (store_base (StoreInst_new (FromAssignStmt 9) None None)) = Abort.
Proof.
  exact (proj2 (proj2 (typed_location_accessors_exclusive AnyNode AnyNode AnyNode
           (store_base (StoreInst_new (FromAssignStmt 9) None None)) 9)) eq_refl).
Defined.

(** ** Rewiring a conditional branch *)

(** X6.  The two setters of a [CondBranchInst] commute, a later call of the
    same setter overrides the earlier one, setting a successor to its
    current block changes nothing, and after both setters the successor list
    is the two blocks set, in true/false order. *)
Theorem setTrueBB_setFalseBB_compose (cb : CondBranchInst) (T T' F F' : BasicBlockPtr) :
  setTrueBB T (setFalseBB F cb) = setFalseBB F (setTrueBB T cb) ∧
  setTrueBB T' (setTrueBB T cb) = setTrueBB T' cb ∧
  setFalseBB F' (setFalseBB F cb) = setFalseBB F' cb ∧
  setTrueBB (getTrueBB cb) cb = cb ∧
  setFalseBB (getFalseBB cb) cb = cb ∧
  toBB <$> CondBranchInst_getSuccessors (setFalseBB F (setTrueBB T cb)) = [T; F].
Proof.
  destruct cb as [base cond [[t] [f]]]. repeat split.
Qed.

(** ** Writing through the operand view *)

Lemma slot_address_inj (sz p j k : Z) :
  sz ≠ 0 -> p + j * sz = p + k * sz -> j = k.
Proof. intros Hsz H. apply (Z.mul_cancel_r j k sz Hsz). lia. Qed.

Lemma ArrayRef_write_read (sz : Z) (m : gmap addr Object) (r : ArrayRef)
    (k : Z) (v : CFGValue) :
  0 < sz -> 0 <= k < Length r ->
  ∃ m', ArrayRef_set sz m r k v = Ret m' ∧
        m' = <[Data r + k * sz := ObjValue v]> m ∧
        ArrayRef_at sz m' r k = Ret v ∧
        (∀ j, j ≠ k -> ArrayRef_at sz m' r j = ArrayRef_at sz m r j).
Proof.
  intros Hsz Hk. unfold ArrayRef_set.
  assert (Hin : (0 <=? k) && (k <? Length r) = true).
  { apply andb_true_intro. split; [apply Z.leb_le|apply Z.ltb_lt]; lia. }
  rewrite Hin. eexists. split; [done|]. split; [done|]. split.
  - unfold ArrayRef_at. rewrite Hin. by rewrite lookup_insert_eq.
  - intros j Hj. unfold ArrayRef_at.
    destruct ((0 <=? j) && (j <? Length r)); [|done].
    rewrite lookup_insert_ne; [done|].
    intros H. apply Hj. symmetry. apply (slot_address_inj sz (Data r)); [lia|done].
Qed.

(** X7.  An argument of an [ApplyInst] (an element of a [TupleInst]) can be
    replaced through the [MutableArrayRef] that [getArguments()]
    ([getElements()]) returns: slot [k] then reads back the new handle, the
    other slots read as before and the header, with its operand count, is
    untouched.  An index outside the operands aborts, for reads and
    writes. *)
Theorem operand_view_write (hA hT sz : Z) (m : gmap addr Object) (this : addr)
    (A : ApplyInst) (U : TupleInst) (k : Z) (v : CFGValue) :
  0 < hA -> 0 < hT -> 0 < sz ->
  (m !! this = Some (ObjApply A) ->
     (0 <= k < apply_NumArgs A ->
        ∃ m', ArrayRef_set sz m (getArguments hA this A) k v = Ret m' ∧
              m' !! this = Some (ObjApply A) ∧
              ArrayRef_at sz m' (getArguments hA this A) k = Ret v ∧
              ∀ j, j ≠ k -> ArrayRef_at sz m' (getArguments hA this A) j =
                            ArrayRef_at sz m (getArguments hA this A) j) ∧
     (k < 0 ∨ apply_NumArgs A <= k ->
        ArrayRef_set sz m (getArguments hA this A) k v = Abort ∧
        ArrayRef_at sz m (getArguments hA this A) k = Abort)) ∧
  (m !! this = Some (ObjTuple U) ->
     (0 <= k < tuple_NumArgs U ->
        ∃ m', ArrayRef_set sz m (getElements hT this U) k v = Ret m' ∧
              m' !! this = Some (ObjTuple U) ∧
              ArrayRef_at sz m' (getElements hT this U) k = Ret v ∧
              ∀ j, j ≠ k -> ArrayRef_at sz m' (getElements hT this U) j =
                            ArrayRef_at sz m (getElements hT this U) j) ∧
     (k < 0 ∨ tuple_NumArgs U <= k ->
        ArrayRef_set sz m (getElements hT this U) k v = Abort ∧
        ArrayRef_at sz m (getElements hT this U) k = Abort)).
Proof.
  intros HA HT Hsz. split; intros Hthis; split.
  - intros Hk.
    destruct (ArrayRef_write_read sz m (getArguments hA this A) k v Hsz Hk)
      as (m' & Hset & -> & Hrd & Hothers).
    exists (<[Data (getArguments hA this A) + k * sz := ObjValue v]> m).
    split; [done|]. split; [|done].
    rewrite lookup_insert_ne; [done|].
    simpl. unfold getArgsStorage. nia.
  - intros Hk. unfold ArrayRef_set, ArrayRef_at. simpl.
    assert ((0 <=? k) && (k <? apply_NumArgs A) = false) as ->; [|done].
    apply andb_false_iff. destruct Hk; [left; apply Z.leb_gt|right; apply Z.ltb_ge]; lia.
  - intros Hk.
    destruct (ArrayRef_write_read sz m (getElements hT this U) k v Hsz Hk)
      as (m' & Hset & -> & Hrd & Hothers).
    exists (<[Data (getElements hT this U) + k * sz := ObjValue v]> m).
    split; [done|]. split; [|done].
    rewrite lookup_insert_ne; [done|].
    simpl. unfold getElementsStorage. nia.
  - intros Hk. unfold ArrayRef_set, ArrayRef_at. simpl.
    assert ((0 <=? k) && (k <? tuple_NumArgs U) = false) as ->; [|done].
    apply andb_false_iff. destruct Hk; [left; apply Z.leb_gt|right; apply Z.ltb_ge]; lia.
Qed.

Lemma operand_view_write_witness :
  ∃ m', ArrayRef_set 8 (mem example_arena) (getArguments 32 0 example_apply) 0 (Some 7)
          = Ret m' ∧
        ArrayRef_at 8 m' (getArguments 32 0 example_apply) 0 = Ret (Some 7) ∧
        ArrayRef_at 8 m' (getArguments 32 0 example_apply) 1 = Ret (Some 3).
Proof.
  destruct (proj1 (proj1 (operand_view_write 32 24 8 (mem example_arena) 0
              example_apply
              {| tuple_base := Instruction_new Tuple LocNull TyNone; tuple_NumArgs := 0 |}
              0 (Some 7) ltac:(lia) ltac:(lia) ltac:(lia))
              ltac:(vm_compute; reflexivity))
            ltac:(simpl; lia))
    as (m' & H1 & _ & H2 & H3).
  exists m'. split; [exact H1|]. split; [exact H2|].
  rewrite (H3 1 ltac:(lia)). reflexivity.
Defined.

(** ** Membership discipline *)

(** X8.  In every state the operations can build, no instruction list holds
    a node twice, an instruction is in the list of at most one block, every
    listed instruction holds storage, a detached instruction is in no list
    and an attached one is in the list of its parent. *)
Theorem listed_in_one_block (s : CFGState) :
  reachable s ->
  (∀ b l, blocks s !! b = Some l -> NoDup l) ∧
  (∀ b b' l l' i, blocks s !! b = Some l -> i ∈ l ->
     blocks s !! b' = Some l' -> i ∈ l' -> b = b') ∧
  (∀ b l i, blocks s !! b = Some l -> i ∈ l -> is_Some (insts s !! i)) ∧
  (∀ i b l, parent_of s i = Some None -> blocks s !! b = Some l -> i ∉ l) ∧
  (∀ i b, parent_of s i = Some (Some b) -> ∃ l, blocks s !! b = Some l ∧ i ∈ l).
Proof.
  intros Hr. pose proof (reachable_consistent s Hr) as Hc.
  split; [apply (listed_once s Hc)|].
  split; [intros b b' l l' i; by apply listed_block_unique|].
  split.
  { intros b l i Hb Hi.
    destruct (listed_parent s Hc b l i Hb Hi) as (I & HI & _). by eexists. }
  split; [intros i b l Hp Hb; by apply (detached_unlisted s b l i)|].
  intros i b Hp. unfold parent_of in Hp.
  destruct (insts s !! i) as [ins|] eqn:Hi; [|done].
  simpl in Hp. injection Hp as Hp. by apply (attached_listed s Hc i ins b).
Qed.

Lemma listed_in_one_block_witness :
  NoDup [1; 2; 3] ∧ is_Some (insts example_state !! 2).
Proof.
  destruct (listed_in_one_block example_state example_state_reachable)
    as (H1 & _ & H3 & _).
  split; [exact (H1 10 [1; 2; 3] eq_refl)|].
  apply (H3 10 [1; 2; 3] 2 eq_refl).
  apply elem_of_cons; right; apply elem_of_cons; by left.
Defined.

(** X9.  [removeFromParent()] succeeds exactly on an attached instruction,
    and it aborts when called a second time on the instruction it has
    detached. *)
Theorem removeFromParent_iff_attached (s : CFGState) (i : addr) :
  reachable s ->
  ((∃ s', removeFromParent i s = Ret s') ↔ ∃ b, parent_of s i = Some (Some b)) ∧
  (∀ s', removeFromParent i s = Ret s' -> removeFromParent i s' = Abort).
Proof.
  intros Hr. pose proof (reachable_consistent s Hr) as Hc. split; [split|].
  - intros [s' H]. unfold removeFromParent in H.
    destruct (parent_of s i) as [[b|]|]; try done. by exists b.
  - intros [b Hp]. unfold removeFromParent. rewrite Hp.
    unfold parent_of in Hp. destruct (insts s !! i) as [ins|] eqn:Hi; [|done].
    simpl in Hp. injection Hp as Hp.
    destruct (attached_listed s Hc i ins b Hi Hp) as (l & Hl & Hin).
    eexists. by apply iplist_remove_spec.
  - intros s' H. apply removeFromParent_detaches in H.
    unfold removeFromParent. by rewrite H.
Qed.

Lemma removeFromParent_iff_attached_witness :
  (∃ s', removeFromParent 2 example_state = Ret s') ∧
  ∀ s', removeFromParent 2 example_state = Ret s' -> removeFromParent 2 s' = Abort.
Proof.
  destruct (removeFromParent_iff_attached example_state 2 example_state_reachable)
    as (H1 & H2).
  split.
  - apply H1. exists 10. reflexivity.
  - exact H2.
Defined.

Lemma filter_absent (i : addr) (l : list addr) :
  i ∉ l -> filter (fun j => j ≠ i) l = l.
Proof.
  induction l as [|x l IH]; intros Hi; [done|].
  apply not_elem_of_cons in Hi as [Hx Hl].
  rewrite filter_cons_True by done. by rewrite IH.
Qed.

Lemma filter_middle (i : addr) (la lb : list addr) :
  i ∉ la -> i ∉ lb -> filter (fun j => j ≠ i) (la ++ i :: lb) = la ++ lb.
Proof.
  intros Ha Hb. rewrite filter_app, filter_cons_False by (intros H; by apply H).
  by rewrite !filter_absent.
Qed.

Lemma reparent_back (p q : BasicBlockPtr) (i : addr) (ins : Instruction)
    (m : gmap addr Instruction) :
  m !! i = Some ins -> ParentBB ins = p ->
  alter (set_parent p) i (alter (set_parent q) i m) = m.
Proof.
  intros Hi Hp. apply map_eq. intros j. destruct (decide (i = j)) as [<-|Hne].
  - rewrite !lookup_alter_eq, Hi. simpl. f_equal. destruct ins. simpl in *. by subst.
  - by rewrite !lookup_alter_ne.
Qed.

(** X10.  Linking and unlinking are inverse: inserting a detached
    instruction and then calling [removeFromParent()] on it gives back the
    state before, and removing a listed instruction and inserting it again
    at its old position gives back the state before. *)
Theorem insert_removeFromParent_round_trip (s : CFGState) (b : addr) (pos : nat) (i : addr) :
  reachable s ->
  (∀ s1, iplist_insert b pos i s = Ret s1 -> removeFromParent i s1 = Ret s) ∧
  (∀ l, blocks s !! b = Some l -> l !! pos = Some i ->
     ∃ s1, removeFromParent i s = Ret s1 ∧ iplist_insert b pos i s1 = Ret s).
Proof.
  intros Hr. pose proof (reachable_consistent s Hr) as Hc. split.
  - intros s1 H. unfold iplist_insert in H.
    destruct (blocks s !! b) as [l|] eqn:Hb; [|done].
    destruct (insts s !! i) as [ins|] eqn:Hi; [|done].
    destruct (ParentBB ins) eqn:Hp; [done|].
    case_decide as Hpos; [|done]. injection H as <-.
    assert (Hfresh : i ∉ l).
    { apply (detached_unlisted s b l i Hc); [|done].
      unfold parent_of. rewrite Hi. simpl. unfold getParent. by rewrite Hp. }
    unfold removeFromParent, parent_of, addNodeToList. simpl.
    rewrite lookup_alter_eq, Hi. simpl.
    erewrite iplist_remove_spec;
      [|simpl; apply lookup_insert_eq
       |apply elem_of_app; right; apply elem_of_cons; by left].
    simpl. f_equal. destruct s as [m bl]. simpl in *. f_equal.
    + by apply (reparent_back None (Some b) i ins).
    + rewrite insert_insert_eq, filter_middle.
      * rewrite take_drop. by apply insert_id.
      * intros H. apply Hfresh. by apply (subseteq_take pos l).
      * intros H. apply Hfresh. by apply (subseteq_drop pos l).
  - intros l Hb Hpos.
    assert (Hin : i ∈ l) by (by apply (list_elem_of_lookup_2 l pos)).
    destruct (listed_parent s Hc b l i Hb Hin) as (ins & Hi & Hp).
    assert (Hsplit : take pos l ++ i :: drop (S pos) l = l)
      by (by apply take_drop_middle).
    pose proof (listed_once s Hc b l Hb) as Hnd.
    rewrite <- Hsplit in Hnd. apply NoDup_app in Hnd as (_ & Hdisj & Hnd).
    apply NoDup_cons in Hnd as [Hnb _].
    assert (Hna : i ∉ take pos l).
    { intros H. apply (Hdisj i H). apply elem_of_cons. by left. }
    assert (Hlen : length (take pos l) = pos).
    { apply length_take_le. apply lookup_lt_Some in Hpos. lia. }
    assert (Hf : filter (fun j => j ≠ i) l = take pos l ++ drop (S pos) l).
    { rewrite <- Hsplit at 1. by apply filter_middle. }
    eexists. split.
    { unfold removeFromParent, parent_of. rewrite Hi. simpl.
      unfold getParent. rewrite Hp. by apply iplist_remove_spec. }
    unfold iplist_insert. simpl. rewrite lookup_insert_eq, lookup_alter_eq, Hi.
    simpl. rewrite Hf.
    rewrite decide_True by (rewrite length_app, Hlen; lia).
    unfold addNodeToList. simpl. f_equal. destruct s as [m bl]. simpl in *. f_equal.
    + by apply (reparent_back (Some b) None i ins).
    + rewrite insert_insert_eq.
      rewrite <- Hlen at 1. rewrite take_app_length.
      rewrite <- Hlen at 2. rewrite drop_app_length.
      rewrite Hsplit. by apply insert_id.
Qed.

Lemma insert_removeFromParent_round_trip_witness :
  ∃ s1, removeFromParent 2 example_state = Ret s1 ∧
        iplist_insert 10 1 2 s1 = Ret example_state.
Proof.
  exact (proj2 (insert_removeFromParent_round_trip example_state 10 1 2
                  example_state_reachable) [1; 2; 3] eq_refl eq_refl).
Defined.

(** X11.  A transfer neither loses nor duplicates instructions: between two
    different blocks the two lists together hold the same instructions as
    before, every other block keeps its list and the same instructions hold
    storage; and transferring an empty range leaves the whole state as it
    was. *)
Theorem transfer_conserves (s : CFGState) (b1 b2 : addr) (pos first last : nat)
    (l1 l2 : list addr) :
  blocks s !! b1 = Some l1 -> blocks s !! b2 = Some l2 ->
  (first ≤ last ∧ last ≤ length l1)%nat -> (pos ≤ length l2)%nat ->
  (b1 ≠ b2 ->
     ∃ s' l1' l2',
       iplist_splice b2 pos b1 first last s = Ret s' ∧
       blocks s' !! b1 = Some l1' ∧ blocks s' !! b2 = Some l2' ∧
       l1' ++ l2' ≡ₚ l1 ++ l2 ∧
       length l1' = (length l1 - (last - first))%nat ∧
       length l2' = (length l2 + (last - first))%nat ∧
       (∀ b, b ≠ b1 -> b ≠ b2 -> blocks s' !! b = blocks s !! b) ∧
       (∀ i, is_Some (insts s' !! i) ↔ is_Some (insts s !! i))) ∧
  (first = last -> iplist_splice b2 pos b1 first last s = Ret s).
Proof.
  intros Hb1 Hb2 Hrange Hpos. split.
  - intros Hne.
    assert (Hb2' : <[b1 := without_range first last l1]> (blocks s) !! b2 = Some l2)
      by (by rewrite lookup_insert_ne).
    pose proof (splice_eval s b1 b2 pos _ _ l1 l2 Hb1 Hrange Hb2' Hpos) as Hev.
    eexists _, (without_range first last l1),
      (take pos l2 ++ range_of first last l1 ++ drop pos l2).
    split; [exact Hev|]. simpl.
    split; [rewrite lookup_insert_ne by done; apply lookup_insert_eq|].
    split; [apply lookup_insert_eq|].
    split.
    { rewrite linked_perm. rewrite (assoc (++)).
      rewrite (Permutation_app_comm (without_range _ _ _)).
      by rewrite <- range_perm by apply Hrange. }
    split.
    { unfold without_range. rewrite length_app, length_take, length_drop. lia. }
    split.
    { unfold range_of.
      rewrite !length_app, !length_take, !length_drop. lia. }
    split.
    { intros b Hn1 Hn2. by rewrite !lookup_insert_ne. }
    intros i. rewrite reparent_lookup. case_decide; [|done].
    by rewrite is_Some_alt; destruct (insts s !! i).
  - intros <-.
    assert (Hw : without_range first first l1 = l1)
      by (unfold without_range; apply take_drop).
    assert (Hm : range_of first first l1 = []).
    { unfold range_of. by rewrite Nat.sub_diag. }
    unfold iplist_splice. rewrite Hb1, decide_True by done.
    rewrite Hw, insert_id, Hb2, decide_True, Hm by done.
    simpl. rewrite take_drop, insert_id by done.
    by destruct s.
Qed.

Lemma transfer_conserves_witness :
  (∃ s' l1' l2',
     iplist_splice 20 0 10 1 3 example_state = Ret s' ∧
     blocks s' !! 10 = Some l1' ∧ blocks s' !! 20 = Some l2' ∧
     l1' ++ l2' ≡ₚ [1; 2; 3] ++ [4]) ∧
  iplist_splice 20 0 10 1 1 example_state = Ret example_state.
Proof.
  split.
  - destruct (proj1 (transfer_conserves example_state 10 20 0 1 3 [1; 2; 3] [4]
                eq_refl eq_refl ltac:(simpl; lia) ltac:(simpl; lia))
              ltac:(discriminate))
      as (s' & l1' & l2' & H1 & H2 & H3 & H4 & _).
    exists s', l1', l2'. split; [exact H1|]. split; [exact H2|].
    split; [exact H3|exact H4].
  - exact (proj2 (transfer_conserves example_state 10 20 0 1 1 [1; 2; 3] [4]
             eq_refl eq_refl ltac:(simpl; lia) ltac:(simpl; lia)) eq_refl).
Defined.
